(** * The request gate of astral-core: rate limiting, CORS, threat filtering

    A shallow embedding of [src/lib/security.ts] (rateLimit, getClientIP,
    getSecurityHeaders, configureCORS, logSecurityEvent) and of the
    middleware that sequences them, followed by the properties of the
    gate that the specification states.

    Conventions of the embedding.
    - JavaScript numbers that hold counts and millisecond timestamps are
      integers far below 2^53; they are modelled as [Z].
    - Header values are byte strings (the Fetch [Headers] class hands out
      Latin-1 strings), so Rocq's [string] of 8-bit characters models them.
    - A [Headers] object is a finite map from lower-cased names to values.
    - The module-level [rateLimitStore] is threaded explicitly, as are the
      clock readings and the random request identifier. *)

From Stdlib Require Import ZArith NArith Ascii String List Bool Lia.
From stdpp Require Import gmap strings pretty.

Local Open Scope Z_scope.

(** ** JavaScript string primitives used by the gate *)

Module Js.

Definition code (c : ascii) : N := N_of_ascii c.

(** WhiteSpace and LineTerminator code points below 256:
    TAB, LF, VT, FF, CR, SP and NBSP. *)
Definition is_white_space (c : ascii) : bool :=
  let n := code c in
  ((9 <=? n) && (n <=? 13) || (n =? 32) || (n =? 160))%N.

(** The characters that [.] of a regular expression refuses. *)
Definition is_line_terminator (c : ascii) : bool :=
  let n := code c in ((n =? 10) || (n =? 13))%N.

Fixpoint trimStart (s : string) : string :=
  match s with
  | EmptyString => EmptyString
  | String c s' => if is_white_space c then trimStart s' else s
  end.

Fixpoint trimEnd (s : string) : string :=
  match s with
  | EmptyString => EmptyString
  | String c s' =>
      match trimEnd s' with
      | EmptyString =>
          if is_white_space c then EmptyString else String c EmptyString
      | t => String c t
      end
  end.

(** [String.prototype.trim]. *)
Definition trim (s : string) : string := trimEnd (trimStart s).

(** [s.split(',')[0]]: the text before the first comma. *)
Fixpoint split_comma_head (s : string) : string :=
  match s with
  | EmptyString => EmptyString
  | String c s' =>
      if (code c =? 44)%N then EmptyString else String c (split_comma_head s')
  end.

(** [s.startsWith(p)]. *)
Fixpoint startsWith (s p : string) {struct p} : bool :=
  match p, s with
  | EmptyString, _ => true
  | String a p', String b s' => bool_decide (a = b) && startsWith s' p'
  | String _ _, EmptyString => false
  end.

(** ASCII case folding; characters from 128 on never fold onto ASCII in
    a regular expression without the [u] flag. *)
Definition lower_char (c : ascii) : ascii :=
  let n := code c in
  if ((65 <=? n) && (n <=? 90))%N then ascii_of_N (n + 32) else c.

Fixpoint lower (s : string) : string :=
  match s with
  | EmptyString => EmptyString
  | String c s' => String (lower_char c) (lower s')
  end.

(** Truthiness of a value of type [string | null | undefined]. *)
Definition truthy (o : option string) : bool :=
  match o with
  | Some (String _ _) => true
  | _ => false
  end.

(** [a || b] on strings. *)
Definition or_else (o : option string) (d : string) : string :=
  match o with
  | Some (String c s) => String c s
  | _ => d
  end.

(** [n.toString()] for an integer. *)
Definition toString (n : Z) : string := pretty n.

(** *** [parseInt(s)] without a radix

    Leading white space is skipped, a sign is read, a [0x] prefix
    selects base sixteen, and the longest run of digits is converted.
    [None] stands for [NaN].  The mathematical value is returned; the
    gate only compares it with an integer that a double holds exactly,
    and rounding to a double is monotone. *)
Definition digit_value (radix : Z) (c : ascii) : option Z :=
  let n := Z.of_N (code c) in
  let v :=
    if (48 <=? n) && (n <=? 57) then n - 48
    else if (97 <=? n) && (n <=? 122) then n - 87
    else if (65 <=? n) && (n <=? 90) then n - 55
    else 36 in
  if v <? radix then Some v else None.

Fixpoint digits_value (radix : Z) (acc : option Z) (s : string) : option Z :=
  match s with
  | EmptyString => acc
  | String c s' =>
      match digit_value radix c with
      | Some d => digits_value radix (Some (radix * default 0 acc + d)) s'
      | None => acc
      end
  end.

Definition parseInt (s : string) : option Z :=
  let s := trimStart s in
  let '(sign, s) :=
    match s with
    | String c s' =>
        if (code c =? 45)%N then (-1, s')
        else if (code c =? 43)%N then (1, s')
        else (1, s)
    | EmptyString => (1, s)
    end in
  let '(radix, s) :=
    match s with
    | String z (String x s') =>
        if ((code z =? 48) && ((code x =? 120) || (code x =? 88)))%N
        then (16, s') else (10, s)
    | _ => (10, s)
    end in
  match digits_value radix None s with
  | Some v => Some (sign * v)
  | None => None
  end.

(** [Math.ceil(d / k)] for integers [d] and [k > 0]. *)
Definition ceil_div (d k : Z) : Z := - ((- d) / k).

End Js.

(** ** The fragment of regular expressions the gate uses

    Every pattern of the middleware is a sequence of literals, possibly
    with [.*] between them, with or without the [i] flag. *)

Module Regex.

Inductive atom : Type :=
| Lit (text : string)
| AnyStar.

Record t : Type := mk { atoms : list atom; ignoreCase : bool }.

Fixpoint strip_prefix (p s : string) : option string :=
  match p, s with
  | EmptyString, _ => Some s
  | String a p', String b s' =>
      if bool_decide (a = b) then strip_prefix p' s' else None
  | String _ _, EmptyString => None
  end.

(** Does the sequence match at the start of the subject?  [.*] is
    tried at every length, which is what backtracking amounts to. *)
Fixpoint match_here (ats : list atom) : string -> bool :=
  match ats with
  | [] => fun _ => true
  | Lit p :: rest =>
      fun s =>
        match strip_prefix p s with
        | Some s' => match_here rest s'
        | None => false
        end
  | AnyStar :: rest =>
      fix star (s : string) : bool :=
        match_here rest s ||
        match s with
        | String c s' => negb (Js.is_line_terminator c) && star s'
        | EmptyString => false
        end
  end.

Fixpoint search (ats : list atom) (s : string) : bool :=
  match_here ats s ||
  match s with
  | String _ s' => search ats s'
  | EmptyString => false
  end.

Definition fold_atom (a : atom) : atom :=
  match a with
  | Lit p => Lit (Js.lower p)
  | AnyStar => AnyStar
  end.

(** [pattern.test(s)]. *)
Definition test (r : t) (s : string) : bool :=
  if ignoreCase r
  then search (map fold_atom (atoms r)) (Js.lower s)
  else search (atoms r) s.

(** [patterns.some(pattern => pattern.test(s))]. *)
Definition some_test (rs : list t) (s : string) : bool :=
  existsb (fun r => test r s) rs.

End Regex.

(** ** Requests, responses and header maps *)

(** The Fetch [Headers] class: names are case-insensitive and kept in
    lower case. *)
Module Headers.

Definition set (name value : string) (h : gmap string string)
  : gmap string string :=
  <[Js.lower name := value]> h.

Definition get (name : string) (h : gmap string string) : option string :=
  h !! Js.lower name.

(** [new Headers(init)] for an object literal, and the loop
    [Object.entries(o).forEach(([key, value]) => h.set(key, value))]. *)
Definition set_all (entries : list (string * string))
    (h : gmap string string) : gmap string string :=
  foldl (fun acc kv => set kv.1 kv.2 acc) h entries.

Definition of_entries (entries : list (string * string))
  : gmap string string :=
  set_all entries ∅.

End Headers.

Record NextRequest : Type := {
  method : string;
  pathname : string;                    (* request.nextUrl.pathname *)
  req_headers : gmap string string;     (* request.headers *)
  req_ip : option string                (* request.ip *)
}.

Definition header (request : NextRequest) (name : string) : option string :=
  Headers.get name (req_headers request).

Inductive Body : Type :=
| BodyNext                                       (* NextResponse.next() *)
| BodyNull                                       (* new NextResponse(null, ...) *)
| BodyText (text : string)                       (* new NextResponse('...', ...) *)
| BodyJson (error : string) (retryAfter : Z).    (* NextResponse.json({...}, ...) *)

(** [headers] holds the headers the source code puts on the response;
    a content type the framework derives from the body is not listed. *)
Record NextResponse : Type := {
  status : Z;
  headers : gmap string string;
  body : Body
}.

Definition set_header (name value : string) (r : NextResponse) : NextResponse :=
  {| status := status r;
     headers := Headers.set name value (headers r);
     body := body r |}.

Record Env : Type := {
  NEXT_PUBLIC_APP_URL : option string;
  NODE_ENV : string
}.

(** ** security.ts *)

Record RateLimitConfig : Type := {
  windowMs : Z;
  maxRequests : Z;
  message : option string
}.

Record RateRecord : Type := {
  count : Z;
  resetTime : Z
}.

(** [getClientIP]. *)
Definition getClientIP (request : NextRequest) : string :=
  let forwardedFor := header request "x-forwarded-for" in
  let realIP := header request "x-real-ip" in
  let cfConnectingIP := header request "cf-connecting-ip" in
  if Js.truthy forwardedFor then
    Js.trim (Js.split_comma_head (default EmptyString forwardedFor))
  else if Js.truthy realIP then
    default EmptyString realIP
  else if Js.truthy cfConnectingIP then
    default EmptyString cfConnectingIP
  else
    Js.or_else (req_ip request) "unknown".

(** [rateLimit(config)(request)], with [Date.now()] as [now] and the
    module-level [rateLimitStore] threaded through. [None] is the
    source's [null]: the request may proceed. *)
Definition rateLimit (config : RateLimitConfig) (request : NextRequest)
    (now : Z) (store : gmap string RateRecord)
  : option NextResponse * gmap string RateRecord :=
  let ip := getClientIP request in
  let key := "rate_limit:" +:+ ip in
  let record := store !! key in
  let fresh :=
    (None, <[key := {| count := 1; resetTime := now + windowMs config |}]> store) in
  match record with
  | None => fresh
  | Some record =>
      if now >? resetTime record then fresh
      else if count record >=? maxRequests config then
        let retryAfter := Js.ceil_div (resetTime record - now) 1000 in
        (Some {| status := 429;
                 headers := Headers.of_entries
                   [("Retry-After", Js.toString retryAfter);
                    ("X-RateLimit-Limit", Js.toString (maxRequests config));
                    ("X-RateLimit-Remaining", "0");
                    ("X-RateLimit-Reset", Js.toString (resetTime record))];
                 body := BodyJson (Js.or_else (message config) "Too many requests")
                                  retryAfter |},
         store)
      else
        (None,
         <[key := {| count := count record + 1;
                     resetTime := resetTime record |}]> store)
  end.

Definition join (sep : string) (parts : list string) : string :=
  match parts with
  | [] => EmptyString
  | p :: ps => foldl (fun acc q => acc +:+ sep +:+ q) p ps
  end.

(** [getSecurityHeaders], in the order of the object literal. *)
Definition getSecurityHeaders : list (string * string) :=
  [("Content-Security-Policy",
    join "; "
      ["default-src 'self'";
       "script-src 'self' 'unsafe-inline' 'unsafe-eval' https://www.googletagmanager.com https://www.google-analytics.com https://static.hotjar.com";
       "style-src 'self' 'unsafe-inline' https://fonts.googleapis.com";
       "font-src 'self' https://fonts.gstatic.com";
       "img-src 'self' data: https: blob:";
       "media-src 'self' https:";
       "connect-src 'self' https: wss: ws:";
       "object-src 'none'";
       "base-uri 'self'";
       "form-action 'self'";
       "frame-ancestors 'none'";
       "upgrade-insecure-requests"]);
   ("X-Content-Type-Options", "nosniff");
   ("X-Frame-Options", "DENY");
   ("X-XSS-Protection", "1; mode=block");
   ("Referrer-Policy", "strict-origin-when-cross-origin");
   ("Permissions-Policy",
    "camera=(), microphone=(), geolocation=(), interest-cohort=()");
   ("Strict-Transport-Security",
    "max-age=63072000; includeSubDomains; preload");
   ("Server", EmptyString);
   ("X-Powered-By", EmptyString)].

(** The allow-list of [configureCORS], after [.filter(Boolean)]. *)
Definition allowedOrigins (env : Env) : list string :=
  omap (fun o => if Js.truthy o then o else None)
    [NEXT_PUBLIC_APP_URL env;
     Some "http://localhost:3000";
     Some "https://localhost:3000"].

(** [configureCORS]. *)
Definition configureCORS (env : Env) (request : NextRequest)
    (response : NextResponse) : NextResponse :=
  let origin := header request "origin" in
  let response :=
    if Js.truthy origin &&
       bool_decide (default EmptyString origin ∈ allowedOrigins env)
    then set_header "Access-Control-Allow-Origin"
           (default EmptyString origin) response
    else response in
  let response :=
    set_header "Access-Control-Allow-Methods"
      "GET, POST, PUT, DELETE, OPTIONS" response in
  let response :=
    set_header "Access-Control-Allow-Headers"
      "Content-Type, Authorization, X-Requested-With" response in
  let response := set_header "Access-Control-Max-Age" "86400" response in
  set_header "Access-Control-Allow-Credentials" "true" response.

(** One entry written by [logSecurityEvent]; the console is the list of
    entries in the gate's state. *)
Record SecurityEvent : Type := {
  event : string;
  details : list (string * string);
  ev_ip : string;
  ev_userAgent : string
}.

Definition logSecurityEvent (event : string) (details : list (string * string))
    (request : NextRequest) (log : list SecurityEvent) : list SecurityEvent :=
  log ++ [{| event := event;
             details := details;
             ev_ip := getClientIP request;
             ev_userAgent := Js.or_else (header request "user-agent") "unknown" |}].


(** ** The middleware *)

Definition apiRateLimitConfig : RateLimitConfig :=
  {| windowMs := 15 * 60 * 1000;
     maxRequests := 100;
     message := Some "Too many API requests from this IP" |}.

Definition authRateLimitConfig : RateLimitConfig :=
  {| windowMs := 15 * 60 * 1000;
     maxRequests := 5;
     message := Some "Too many authentication attempts" |}.

Definition generalRateLimitConfig : RateLimitConfig :=
  {| windowMs := 60 * 1000;
     maxRequests := 60;
     message := Some "Too many requests from this IP" |}.

Definition apiRateLimit := rateLimit apiRateLimitConfig.
Definition authRateLimit := rateLimit authRateLimitConfig.
Definition generalRateLimit := rateLimit generalRateLimitConfig.

Definition suspiciousPatterns : list Regex.t :=
  [Regex.mk [Regex.Lit "bot"] true;
   Regex.mk [Regex.Lit "crawler"] true;
   Regex.mk [Regex.Lit "spider"] true;
   Regex.mk [Regex.Lit "scraper"] true;
   Regex.mk [Regex.Lit "scanner"] true].

Definition legitimateBots : list Regex.t :=
  [Regex.mk [Regex.Lit "googlebot"] true;
   Regex.mk [Regex.Lit "bingbot"] true;
   Regex.mk [Regex.Lit "slurp"] true;
   Regex.mk [Regex.Lit "duckduckbot"] true;
   Regex.mk [Regex.Lit "facebookexternalhit"] true;
   Regex.mk [Regex.Lit "twitterbot"] true;
   Regex.mk [Regex.Lit "linkedinbot"] true].

Definition suspiciousUrlPatterns : list Regex.t :=
  [Regex.mk [Regex.Lit ".."] false;
   Regex.mk [Regex.Lit "/etc/passwd"] false;
   Regex.mk [Regex.Lit "/windows/system32"] false;
   Regex.mk [Regex.Lit "<script"] true;
   Regex.mk [Regex.Lit "union"; Regex.AnyStar; Regex.Lit "select"] true;
   Regex.mk [Regex.Lit "eval("] true].

(** What one run of the middleware reads from outside the request:
    [Date.now()] inside the rate limiter, [Date.now()] for the
    [X-Response-Time] header, and [crypto.randomUUID()]. *)
Record World : Type := {
  now : Z;
  stamp : Z;
  requestId : string
}.

(** The state that outlives a request. *)
Record GateState : Type := {
  rateLimitStore : gmap string RateRecord;
  console : list SecurityEvent
}.

(** [number > limit], false for [NaN]. *)
Definition exceeds (n : option Z) (limit : Z) : bool :=
  match n with
  | Some v => v >? limit
  | None => false
  end.

(** [middleware(request)]. The [try]/[catch] around the rate limiter has
    no counterpart: [rateLimit] as embedded never throws. *)
Definition middleware (env : Env) (w : World) (request : NextRequest)
    (st : GateState) : NextResponse * GateState :=
  let response := {| status := 200; headers := ∅; body := BodyNext |} in
  let pathname := pathname request in
  let ip := getClientIP request in
  let response :=
    {| status := status response;
       headers := Headers.set_all getSecurityHeaders (headers response);
       body := body response |} in
  let response :=
    if Js.startsWith pathname "/api"
    then configureCORS env request response else response in
  if Js.startsWith pathname "/api" && bool_decide (method request = "OPTIONS")
  then ({| status := 200; headers := headers response; body := BodyNull |}, st)
  else
    let '(limiter, type) :=
      if Js.startsWith pathname "/api/auth/" then (authRateLimit, "auth")
      else if Js.startsWith pathname "/api/" then (apiRateLimit, "api")
      else (generalRateLimit, "general") in
    let '(rateLimitResponse, store) :=
      limiter request (now w) (rateLimitStore st) in
    match rateLimitResponse with
    | Some rateLimitResponse =>
        (rateLimitResponse,
         {| rateLimitStore := store;
            console :=
              logSecurityEvent "rate_limit_exceeded"
                [("endpoint", pathname); ("ip", ip); ("type", type)]
                request (console st) |})
    | None =>
        let '(response, log) :=
          if Js.startsWith pathname "/admin" ||
             Js.startsWith pathname "/moderator"
          then
            (set_header "Expires" "0"
               (set_header "Pragma" "no-cache"
                  (set_header "Cache-Control"
                     "no-store, no-cache, must-revalidate, proxy-revalidate"
                     (set_header "X-Frame-Options" "SAMEORIGIN" response))),
             logSecurityEvent "admin_access_attempt"
               [("path", pathname); ("ip", ip)] request (console st))
          else (response, console st) in
        let userAgent := Js.or_else (header request "user-agent") EmptyString in
        let isSuspicious :=
          Regex.some_test suspiciousPatterns userAgent &&
          negb (Regex.some_test legitimateBots userAgent) in
        let contentLength := header request "content-length" in
        let after_bot_check :=
          if Js.truthy contentLength &&
             exceeds (Js.parseInt (default EmptyString contentLength))
                     (10 * 1024 * 1024)
          then
            ({| status := 413; headers := ∅;
                body := BodyText "Request Too Large" |},
             {| rateLimitStore := store;
                console :=
                  logSecurityEvent "large_request_blocked"
                    [("contentLength", default EmptyString contentLength);
                     ("path", pathname); ("ip", ip)] request log |})
          else if Regex.some_test suspiciousUrlPatterns pathname then
            ({| status := 400; headers := ∅; body := BodyText "Bad Request" |},
             {| rateLimitStore := store;
                console :=
                  logSecurityEvent "malicious_url_blocked"
                    [("path", pathname); ("ip", ip)] request log |})
          else
            let response := set_header "X-Request-ID" (requestId w) response in
            let response :=
              set_header "X-Response-Time" (Js.toString (stamp w)) response in
            let response :=
              if bool_decide (NODE_ENV env = "development")
              then set_header "X-Debug-IP" ip
                     (set_header "X-Environment" "development" response)
              else response in
            (response, {| rateLimitStore := store; console := log |}) in
        if isSuspicious &&
           negb (Js.startsWith pathname "/api/robots") &&
           negb (Js.startsWith pathname "/api/sitemap")
        then
          if Js.startsWith pathname "/admin" || Js.startsWith pathname "/api/"
          then
            ({| status := 403; headers := ∅; body := BodyText "Access Denied" |},
             {| rateLimitStore := store;
                console :=
                  logSecurityEvent "suspicious_bot_blocked"
                    [("userAgent", userAgent); ("path", pathname); ("ip", ip)]
                    request log |})
          else after_bot_check
        else after_bot_check
    end.

(** ** Building requests, environments and states *)

Definition mkRequest (m path : string) (hs : list (string * string))
    (addr : option string) : NextRequest :=
  {| method := m; pathname := path;
     req_headers := Headers.of_entries hs; req_ip := addr |}.

Definition prodEnv : Env :=
  {| NEXT_PUBLIC_APP_URL := Some "https://astralcore.io";
     NODE_ENV := "production" |}.

Definition world0 : World :=
  {| now := 1700000000000; stamp := 1700000000001;
     requestId := "00000000-0000-4000-8000-000000000000" |}.

Definition emptyState : GateState :=
  {| rateLimitStore := ∅; console := [] |}.


(** ** Sequences of requests *)

(** One rate limiter serving requests one after the other, each with the
    clock reading taken when it is evaluated. *)
Fixpoint serve (config : RateLimitConfig) (reqs : list (NextRequest * Z))
    (store : gmap string RateRecord)
  : list (option NextResponse) * gmap string RateRecord :=
  match reqs with
  | [] => ([], store)
  | (request, t) :: rest =>
      let '(out, store) := rateLimit config request t store in
      let '(outs, store) := serve config rest store in
      (out :: outs, store)
  end.

(** The middleware serving requests one after the other. *)
Fixpoint run (env : Env) (reqs : list (World * NextRequest)) (st : GateState)
  : list NextResponse * GateState :=
  match reqs with
  | [] => ([], st)
  | (w, request) :: rest =>
      let '(out, st) := middleware env w request st in
      let '(outs, st) := run env rest st in
      (out :: outs, st)
  end.

(** Clock readings that never go back, starting from [t0]. *)
Fixpoint nondecreasing (t0 : Z) (ts : list Z) : Prop :=
  match ts with
  | [] => True
  | t :: ts' => t0 <= t /\ nondecreasing t ts'
  end.

(** The counter stores the gate can be in: the empty map at start-up,
    and whatever a rate limiter of any policy leaves behind. *)
Inductive reachable : gmap string RateRecord -> Prop :=
| reachable_start : reachable ∅
| reachable_step config request t store :
    reachable store ->
    reachable (rateLimit config request t store).2.

(** ** The conditions the middleware branches on

    Named here so that statements about the gate can refer to them;
    [middleware_status] below ties each of them to the code. *)

Definition rateLimitKey (request : NextRequest) : string :=
  "rate_limit:" +:+ getClientIP request.

Definition isPreflight (request : NextRequest) : bool :=
  Js.startsWith (pathname request) "/api" &&
  bool_decide (method request = "OPTIONS").

Definition policyFor (path : string) : RateLimitConfig :=
  if Js.startsWith path "/api/auth/" then authRateLimitConfig
  else if Js.startsWith path "/api/" then apiRateLimitConfig
  else generalRateLimitConfig.

Definition rateLimited (w : World) (request : NextRequest) (st : GateState)
  : bool :=
  bool_decide (is_Some
    (rateLimit (policyFor (pathname request)) request (now w)
       (rateLimitStore st)).1).

Definition userAgentOf (request : NextRequest) : string :=
  Js.or_else (header request "user-agent") EmptyString.

Definition botBlocked (request : NextRequest) : bool :=
  Regex.some_test suspiciousPatterns (userAgentOf request) &&
  negb (Regex.some_test legitimateBots (userAgentOf request)) &&
  negb (Js.startsWith (pathname request) "/api/robots") &&
  negb (Js.startsWith (pathname request) "/api/sitemap") &&
  (Js.startsWith (pathname request) "/admin" ||
   Js.startsWith (pathname request) "/api/").

Definition oversized (request : NextRequest) : bool :=
  Js.truthy (header request "content-length") &&
  exceeds (Js.parseInt (default EmptyString (header request "content-length")))
          (10 * 1024 * 1024).

Definition maliciousPath (request : NextRequest) : bool :=
  Regex.some_test suspiciousUrlPatterns (pathname request).

(** The names of the headers [getSecurityHeaders] produces. *)
Definition securityHeaderNames : list string := map fst getSecurityHeaders.

(** ** What the statements below speak of

    Readings of the matchers and of the string primitives as
    propositions, independent of how the code computes them. *)

Definition has_prefix (p s : string) : Prop :=
  exists rest, s = p +:+ rest.

Definition contains (sub s : string) : Prop :=
  exists pre post, s = pre +:+ sub +:+ post.

(** [sub] occurs in [s] in some letter case. *)
Definition contains_ci (sub s : string) : Prop :=
  exists pre mid post, s = pre +:+ mid +:+ post /\ Js.lower mid = Js.lower sub.

(** A stretch that [.*] can consume. *)
Fixpoint dot_run (g : string) : bool :=
  match g with
  | EmptyString => true
  | String c g' => negb (Js.is_line_terminator c) && dot_run g'
  end.

(** The strings a sequence of atoms matches exactly. *)
Inductive matches : list Regex.atom -> string -> Prop :=
| matches_nil : matches [] EmptyString
| matches_lit p rest m :
    matches rest m -> matches (Regex.Lit p :: rest) (p +:+ m)
| matches_star g rest m :
    dot_run g = true -> matches rest m ->
    matches (Regex.AnyStar :: rest) (g +:+ m).

Definition union_then_select (s : string) : Prop :=
  exists pre u gap sl post,
    s = pre +:+ u +:+ gap +:+ sl +:+ post /\
    Js.lower u = "union" /\ Js.lower sl = "select" /\ dot_run gap = true.

(** A path one of [suspiciousUrlPatterns] is meant to catch. *)
Definition malicious (path : string) : Prop :=
  contains ".." path \/
  contains "/etc/passwd" path \/
  contains "/windows/system32" path \/
  contains_ci "<script" path \/
  union_then_select path \/
  contains_ci "eval(" path.

Definition suspiciousSignatures : list string :=
  ["bot"; "crawler"; "spider"; "scraper"; "scanner"].

Definition legitimateSignatures : list string :=
  ["googlebot"; "bingbot"; "slurp"; "duckduckbot"; "facebookexternalhit";
   "twitterbot"; "linkedinbot"].

(** The origins [configureCORS] is configured to allow. *)
Definition origin_allowed (env : Env) (o : string) : Prop :=
  (o <> EmptyString /\ NEXT_PUBLIC_APP_URL env = Some o) \/
  o = "http://localhost:3000" \/
  o = "https://localhost:3000".

Fixpoint all_white_space (s : string) : bool :=
  match s with
  | EmptyString => true
  | String c s' => Js.is_white_space c && all_white_space s'
  end.

Fixpoint no_comma (s : string) : bool :=
  match s with
  | EmptyString => true
  | String c s' => negb (Js.code c =? 44)%N && no_comma s'
  end.

(** [id] is the first comma-separated hop of [v] without the white
    space around it. *)
Definition first_hop_trimmed (v id : string) : Prop :=
  exists hop lead trail,
    (v = hop \/ exists rest, v = hop +:+ "," +:+ rest) /\
    no_comma hop = true /\
    hop = lead +:+ id +:+ trail /\
    all_white_space lead = true /\
    all_white_space trail = true /\
    (forall c r, id = String c r -> Js.is_white_space c = false) /\
    (forall a c, id = a +:+ String c EmptyString -> Js.is_white_space c = false).

(** The priority order of the client identity as the specification
    words it, by presence of the headers; compared with [getClientIP]
    below. *)
Definition identity_by_presence (request : NextRequest) : string :=
  match header request "x-forwarded-for" with
  | Some v => Js.trim (Js.split_comma_head v)
  | None =>
      match header request "x-real-ip" with
      | Some v => v
      | None =>
          match header request "cf-connecting-ip" with
          | Some v => v
          | None =>
              match req_ip request with
              | Some v => v
              | None => "unknown"
              end
          end
      end
  end.


(** The record of [key] is the window that a limiter of policy [config]
    opened at time [start]: a request of that client found no record or
    an expired one, and the calls that followed, of any limiter and any
    client, left the record in place, those of the client itself coming
    no later than the end of the window. *)
Inductive window_open (config : RateLimitConfig) (key : string) (start : Z)
  : gmap string RateRecord -> Prop :=
| window_opened request store :
    rateLimitKey request = key ->
    (store !! key = None \/
     exists r, store !! key = Some r /\ start > resetTime r) ->
    window_open config key start (rateLimit config request start store).2
| window_kept config' request t store :
    window_open config key start store ->
    (rateLimitKey request = key -> t <= start + windowMs config) ->
    window_open config key start (rateLimit config' request t store).2.

(** ** Concrete policies, requests and states *)

(** Scenario A of the specification: two requests a minute. *)
Definition scenarioA_policy : RateLimitConfig :=
  {| windowMs := 60000; maxRequests := 2; message := None |}.

Definition scenarioA_request : NextRequest :=
  mkRequest "GET" "/" [("X-Forwarded-For", "203.0.113.7")] None.

(** The store once [scenarioA_request] has been seen at time 1000. *)
Definition store_after_first : gmap string RateRecord :=
  (rateLimit scenarioA_policy scenarioA_request 1000 ∅).2.

(** The store once it has been seen three times at time 1000: the
    budget of two is used up and the third request was rejected. *)
Definition store_after_third : gmap string RateRecord :=
  (rateLimit scenarioA_policy scenarioA_request 1000
     (rateLimit scenarioA_policy scenarioA_request 1000
        store_after_first).2).2.

Definition oneShot_policy : RateLimitConfig :=
  {| windowMs := 60000; maxRequests := 1; message := None |}.



Definition home_request : NextRequest :=
  mkRequest "GET" "/" [("X-Real-IP", "198.51.100.4")] None.

Definition login_request : NextRequest :=
  mkRequest "POST" "/api/auth/login" [("X-Real-IP", "198.51.100.4")] None.

Definition traversal_request : NextRequest :=
  mkRequest "GET" "/../../etc/passwd" [] None.

Definition upload_request : NextRequest :=
  mkRequest "POST" "/uploads/etc/passwd" [("Content-Length", "11000000")] None.

Definition preflight_upload_request : NextRequest :=
  mkRequest "OPTIONS" "/api/upload" [("Content-Length", "11000000")] None.

Definition scraper_request : NextRequest :=
  mkRequest "GET" "/api/users" [("User-Agent", "curl-scraper/1.0")] None.

Definition googlebot_request : NextRequest :=
  mkRequest "GET" "/admin/x" [("User-Agent", "Googlebot")] None.

Definition preflight_scraper_request : NextRequest :=
  mkRequest "OPTIONS" "/api/users" [("User-Agent", "curl-scraper/1.0")] None.

Definition cors_request : NextRequest :=
  mkRequest "GET" "/api/profile" [("Origin", "https://astralcore.io")] None.

(** The response the middleware hands to [configureCORS]. *)
Definition decorated_response : NextResponse :=
  {| status := 200;
     headers := Headers.set_all getSecurityHeaders ∅;
     body := BodyNext |}.

Definition proxied_request : NextRequest :=
  mkRequest "GET" "/"
    [("X-Forwarded-For", " 203.0.113.7 , 10.0.0.1"); ("X-Real-IP", "10.0.0.1")]
    (Some "192.0.2.1").

Definition empty_forwarded_request : NextRequest :=
  mkRequest "GET" "/"
    [("X-Forwarded-For", EmptyString); ("X-Real-IP", "10.0.0.1")] None.

(** ** Strings of UTF-16 code units

    The strings the helpers of [security.ts] receive from users
    (passwords, keys, file names, free text) are arbitrary JavaScript
    strings; they are modelled as lists of code units. *)

Module Units.

(** An ASCII literal of the source as code units. *)
Definition of_string (s : string) : list N :=
  map N_of_ascii (String.list_ascii_of_string s).

Definition in_range (lo hi c : N) : bool := ((lo <=? c) && (c <=? hi))%N.

(** WhiteSpace and LineTerminator: what [trim] strips and [\s] matches. *)
Definition is_space (c : N) : bool :=
  (in_range 9 13 c || (c =? 32) || (c =? 160) || (c =? 5760) ||
   in_range 8192 8202 c || (c =? 8232) || (c =? 8233) || (c =? 8239) ||
   (c =? 8287) || (c =? 12288) || (c =? 65279))%N.

(** [\w], also the characters [\b] tells apart from the others. *)
Definition is_word (c : N) : bool :=
  (in_range 48 57 c || in_range 65 90 c || in_range 97 122 c || (c =? 95))%N.

(** Canonicalisation under the [i] flag, as far as it can reach an
    ASCII pattern character: ASCII letters go to upper case, and no code
    unit from 128 on is identified with an ASCII one. *)
Definition fold_case (c : N) : N :=
  if in_range 97 122 c then (c - 32)%N else c.

Fixpoint trimStart (s : list N) : list N :=
  match s with
  | [] => []
  | c :: s' => if is_space c then trimStart s' else s
  end.

Fixpoint trimEnd (s : list N) : list N :=
  match s with
  | [] => []
  | c :: s' =>
      match trimEnd s' with
      | [] => if is_space c then [] else [c]
      | t => c :: t
      end
  end.

Definition trim (s : list N) : list N := trimEnd (trimStart s).

(** [s.padStart(n, c)] for a one-character filler. *)
Definition padStart (n : nat) (c : N) (s : list N) : list N :=
  replicate (n - length s) c ++ s.

(** [n.toString(16)]. *)
Definition hexDigit (d : N) : N := (if d <? 10 then 48 + d else 87 + d)%N.

Fixpoint toHex (fuel : nat) (n : N) (acc : list N) : list N :=
  match fuel with
  | O => acc
  | S fuel' =>
      let acc := hexDigit (n mod 16) :: acc in
      if (n / 16 =? 0)%N then acc else toHex fuel' (n / 16)%N acc
  end.

Definition toString16 (n : N) : list N := toHex (S (N.size_nat n)) n [].

End Units.

(** ** A backtracking matcher for the regular expressions of security.ts

    A position in the subject is the code unit before it, if any, and
    the input that is left.  [run r prev s k] tries the ways [r] can
    match at that position in the order a backtracking matcher does,
    handing each end position to the continuation [k] until one is
    accepted. *)

Module Re.

Inductive t : Type :=
| Empty
| One (p : N -> bool)     (* a literal, a class, [\w], [\s] *)
| Seq (a b : t)
| Star (a : t)            (* greedy [a*] *)
| NotAhead (a : t)        (* [(?!a)] *)
| WordBoundary            (* [\b] *)
| Bol                     (* [^] without the [m] flag *)
| Eol.                    (* [$] without the [m] flag *)

Definition word_before (prev : option N) : bool :=
  match prev with
  | Some c => Units.is_word c
  | None => false
  end.

Definition word_after (s : list N) : bool :=
  match s with
  | c :: _ => Units.is_word c
  | [] => false
  end.

(** The loop of a greedy star: another round of [body] that consumes
    something, else leave the loop.  The input gets shorter each round,
    so [fuel] above its length is never used up. *)
Fixpoint star_loop {A : Type}
    (body : option N -> list N -> (option N -> list N -> option A) -> option A)
    (k : option N -> list N -> option A)
    (fuel : nat) (prev : option N) (s : list N) : option A :=
  match fuel with
  | O => k prev s
  | S fuel' =>
      match body prev s
              (fun prev' s' =>
                 if (length s' <? length s)%nat
                 then star_loop body k fuel' prev' s' else None) with
      | Some x => Some x
      | None => k prev s
      end
  end.

Fixpoint run (A : Type) (r : t) {struct r}
  : option N -> list N -> (option N -> list N -> option A) -> option A :=
  match r with
  | Empty => fun prev s k => k prev s
  | One p =>
      fun prev s k =>
        match s with
        | c :: s' => if p c then k (Some c) s' else None
        | [] => None
        end
  | Seq a b =>
      fun prev s k => run A a prev s (fun prev' s' => run A b prev' s' k)
  | Star a =>
      fun prev s k => star_loop (run A a) k (S (length s)) prev s
  | NotAhead a =>
      fun prev s k =>
        match run unit a prev s (fun _ _ => Some tt) with
        | Some _ => None
        | None => k prev s
        end
  | WordBoundary =>
      fun prev s k =>
        if xorb (word_before prev) (word_after s) then k prev s else None
  | Bol =>
      fun prev s k =>
        match prev with
        | None => k prev s
        | Some _ => None
        end
  | Eol =>
      fun prev s k =>
        match s with
        | [] => k prev s
        | _ :: _ => None
        end
  end.

(** The first position from which [r] matches, scanning to the right. *)
Fixpoint search (A : Type) (r : t) (prev : option N) (s : list N)
    (k : option N -> list N -> option A) : option A :=
  match run A r prev s k with
  | Some x => Some x
  | None =>
      match s with
      | c :: s' => search A r (Some c) s' k
      | [] => None
      end
  end.

(** [r.test(s)]. *)
Definition test (r : t) (s : list N) : bool :=
  match search unit r None s (fun _ _ => Some tt) with
  | Some _ => true
  | None => false
  end.

(** [s.replace(r, '')] for [r] with the [g] flag: every match found
    from left to right is dropped; after an empty match the scan moves
    on by one code unit. *)
Fixpoint remove_from (fuel : nat) (r : t) (prev : option N) (s : list N)
  : list N :=
  match fuel with
  | O => s
  | S fuel' =>
      let step :=
        match s with
        | c :: s' => c :: remove_from fuel' r (Some c) s'
        | [] => []
        end in
      match run (option N * list N) r prev s (fun p' s' => Some (p', s')) with
      | Some (prev', s') =>
          if (length s' <? length s)%nat
          then remove_from fuel' r prev' s' else step
      | None => step
      end
  end.

Definition remove_all (r : t) (s : list N) : list N :=
  remove_from (S (length s)) r None s.

(** *** Building patterns *)

Definition chr (c : N) : t := One (fun x => (x =? c)%N).

(** One character of a literal under the [i] flag. *)
Definition chr_ci (c : N) : t :=
  One (fun x => (Units.fold_case x =? Units.fold_case c)%N).

Fixpoint seq_of (rs : list t) : t :=
  match rs with
  | [] => Empty
  | r :: rs' => Seq r (seq_of rs')
  end.

Definition lit_ci (s : string) : t := seq_of (map chr_ci (Units.of_string s)).

Definition plus (a : t) : t := Seq a (Star a).

(** [a{n,}]. *)
Fixpoint at_least (n : nat) (a : t) : t :=
  match n with
  | O => Star a
  | S n' => Seq a (at_least n' a)
  end.

(** *** What a pattern matches

    [lang r prev s prev' s'] holds when [r] can match at the position
    [(prev, s)] and end at [(prev', s')]. *)

Inductive star_lang
    (R : option N -> list N -> option N -> list N -> Prop)
  : option N -> list N -> option N -> list N -> Prop :=
| star_done p s : star_lang R p s p s
| star_more p s p1 s1 p2 s2 :
    R p s p1 s1 -> (length s1 < length s)%nat ->
    star_lang R p1 s1 p2 s2 -> star_lang R p s p2 s2.

Fixpoint lang (r : t) : option N -> list N -> option N -> list N -> Prop :=
  match r with
  | Empty => fun p s p' s' => p' = p /\ s' = s
  | One f => fun p s p' s' => exists c, s = c :: s' /\ f c = true /\ p' = Some c
  | Seq a b => fun p s p' s' => exists q u, lang a p s q u /\ lang b q u p' s'
  | Star a => star_lang (lang a)
  | NotAhead a =>
      fun p s p' s' => p' = p /\ s' = s /\ ~ exists q u, lang a p s q u
  | WordBoundary =>
      fun p s p' s' => p' = p /\ s' = s /\ word_before p <> word_after s
  | Bol => fun p s p' s' => p' = p /\ s' = s /\ p = None
  | Eol => fun p s p' s' => p' = p /\ s' = s /\ s = []
  end.

End Re.

(** ** security.ts, the validators and sanitizers *)

(** The script-tag pattern of [sanitizeInput], flags [gi]; with spaces
    added between its parts it reads
    [<script \b [^<]* (?: (?!<\/script>) < [^<]* )* <\/script>]. *)
Definition scriptTagPattern : Re.t :=
  Re.seq_of
    [Re.lit_ci "<script";
     Re.WordBoundary;
     Re.Star (Re.One (fun x => negb (x =? 60)%N));
     Re.Star
       (Re.seq_of
          [Re.NotAhead (Re.lit_ci "</script>");
           Re.chr 60;
           Re.Star (Re.One (fun x => negb (x =? 60)%N))]);
     Re.lit_ci "</script>"].

(** [/javascript:/gi] *)
Definition javascriptUrlPattern : Re.t := Re.lit_ci "javascript:".

(** [/on\w+\s*=/gi] *)
Definition eventHandlerPattern : Re.t :=
  Re.seq_of
    [Re.lit_ci "on"; Re.plus (Re.One Units.is_word);
     Re.Star (Re.One Units.is_space); Re.chr 61].

(** [/data:/gi] *)
Definition dataUrlPattern : Re.t := Re.lit_ci "data:".

(** [sanitizeInput]. *)
Definition sanitizeInput (input : list N) : list N :=
  Re.remove_all dataUrlPattern
    (Re.remove_all eventHandlerPattern
       (Re.remove_all javascriptUrlPattern
          (Re.remove_all scriptTagPattern (Units.trim input)))).

(** [/^[^\s@]+@[^\s@]+\.[^\s@]+$/] *)
Definition emailPart (x : N) : bool := negb (Units.is_space x) && negb (x =? 64)%N.

Definition emailRegex : Re.t :=
  Re.seq_of
    [Re.Bol; Re.plus (Re.One emailPart); Re.chr 64;
     Re.plus (Re.One emailPart); Re.chr 46;
     Re.plus (Re.One emailPart); Re.Eol].

(** [sanitizeEmail]; [toLowerCase] is [String.prototype.toLowerCase],
    taken as given. [None] is the source's [null]. *)
Definition sanitizeEmail (toLowerCase : list N -> list N) (email : list N)
  : option (list N) :=
  let sanitized := sanitizeInput (toLowerCase email) in
  if negb (Re.test emailRegex sanitized) then None else Some sanitized.

Module PasswordValidation.
Record t : Type := { isValid : bool; errors : list string; score : Z }.
End PasswordValidation.

(** The code units of the class in the special-character test:
    [! @ # $ % ^ & * ( ) , . ?], the double quote, [: { } | < >]. *)
Definition passwordSpecials : list N :=
  [33; 64; 35; 36; 37; 94; 38; 42; 40; 41; 44; 46; 63; 34; 58; 123; 125;
   124; 60; 62]%N.

Definition one_of (cs : list N) (x : N) : bool := existsb (N.eqb x) cs.

(** [validatePassword]. *)
Definition validatePassword (password : list N) : PasswordValidation.t :=
  let errors : list string := [] in
  let score := 0 in
  let '(errors, score) :=
    if (length password <? 8)%nat
    then (errors ++ ["Password must be at least 8 characters long"], score)
    else (errors, score + 1) in
  let '(errors, score) :=
    if negb (Re.test (Re.One (Units.in_range 97 122)) password)
    then (errors ++ ["Password must contain at least one lowercase letter"],
          score)
    else (errors, score + 1) in
  let '(errors, score) :=
    if negb (Re.test (Re.One (Units.in_range 65 90)) password)
    then (errors ++ ["Password must contain at least one uppercase letter"],
          score)
    else (errors, score + 1) in
  let '(errors, score) :=
    if negb (Re.test (Re.One (Units.in_range 48 57)) password)
    then (errors ++ ["Password must contain at least one number"], score)
    else (errors, score + 1) in
  let '(errors, score) :=
    if negb (Re.test (Re.One (one_of passwordSpecials)) password)
    then (errors ++ ["Password must contain at least one special character"],
          score)
    else (errors, score + 1) in
  let score := if (12 <=? length password)%nat then score + 1 else score in
  {| PasswordValidation.isValid := bool_decide (length errors = 0%nat);
     PasswordValidation.errors := errors;
     PasswordValidation.score := Z.min score 5 |}.

(** [generateCSRFToken]; [random] is what [crypto.getRandomValues]
    writes into the [Uint8Array(32)]. *)
Definition generateCSRFToken (random : list N) : list N :=
  concat (map (fun b => Units.padStart 2 48 (Units.toString16 b)) random).

(** [validateCSRFToken]. *)
Definition validateCSRFToken (token sessionToken : list N) : bool :=
  bool_decide (token = sessionToken) && bool_decide (length token = 64%nat).

Module File.
Record t : Type := { type : list N; size : Z; name : list N }.
End File.

Module FileValidation.
Record t : Type := { isValid : bool; errors : list (list N) }.
End FileValidation.

Definition defaultAllowedTypes : list (list N) :=
  [Units.of_string "image/jpeg"; Units.of_string "image/png";
   Units.of_string "image/webp"].

Definition defaultMaxSize : Z := 5 * 1024 * 1024.

(** The code units of the class in the file-name test: [< > :], the
    double quote, [/], the backslash, [| ? *]. *)
Definition fileNameForbidden : list N :=
  [60; 62; 58; 34; 47; 92; 124; 63; 42]%N.

(** [validateFileUpload]; [showQuotient n d] is the text JavaScript
    gives for the number [n / d] in a template string. *)
Definition validateFileUpload (showQuotient : Z -> Z -> list N)
    (file : File.t) (allowedTypes : list (list N)) (maxSize : Z)
  : FileValidation.t :=
  let errors : list (list N) := [] in
  let errors :=
    if negb (bool_decide (File.type file ∈ allowedTypes))
    then errors ++ [Units.of_string "File type " ++ File.type file ++
                    Units.of_string " is not allowed"]
    else errors in
  let errors :=
    if File.size file >? maxSize
    then errors ++ [Units.of_string "File size exceeds limit of " ++
                    showQuotient maxSize (1024 * 1024) ++
                    Units.of_string "MB"]
    else errors in
  let errors :=
    if Re.test (Re.One (one_of fileNameForbidden)) (File.name file)
    then errors ++ [Units.of_string "Invalid file name"]
    else errors in
  {| FileValidation.isValid := bool_decide (length errors = 0%nat);
     FileValidation.errors := errors |}.

(** [/^[a-zA-Z0-9_-]{32,}$/] *)
Definition apiKeyChar (x : N) : bool :=
  (Units.in_range 97 122 x || Units.in_range 65 90 x ||
   Units.in_range 48 57 x || (x =? 95) || (x =? 45))%N.

Definition apiKeyPattern : Re.t :=
  Re.seq_of [Re.Bol; Re.at_least 32 (Re.One apiKeyChar); Re.Eol].

(** [validateAPIKey]. *)
Definition validateAPIKey (key : list N) : bool := Re.test apiKeyPattern key.

(** The part of [env] that [performSecurityChecks] reads besides the
    public settings. *)
Record Secrets : Type := {
  JWT_SECRET : option (list N);
  NEXTAUTH_SECRET : option (list N)
}.

Module SecurityChecks.
Record t : Type := { passed : bool; issues : list string }.
End SecurityChecks.

(** [!s || s.length < 32]. *)
Definition too_short (s : option (list N)) : bool :=
  match s with
  | Some (c :: s') => (length (c :: s') <? 32)%nat
  | _ => true
  end.

(** [performSecurityChecks]. *)
Definition performSecurityChecks (env : Env) (secrets : Secrets)
  : SecurityChecks.t :=
  let issues : list string := [] in
  let issues :=
    if bool_decide (NODE_ENV env = "production") then
      let issues :=
        if too_short (JWT_SECRET secrets)
        then issues ++ ["JWT_SECRET is not set or too short for production"]
        else issues in
      let issues :=
        if too_short (NEXTAUTH_SECRET secrets)
        then issues ++
             ["NEXTAUTH_SECRET is not set or too short for production"]
        else issues in
      let issues :=
        if negb (Js.truthy (NEXT_PUBLIC_APP_URL env)) ||
           negb (Js.startsWith (default EmptyString (NEXT_PUBLIC_APP_URL env))
                   "https://")
        then issues ++ ["NEXT_PUBLIC_APP_URL must be HTTPS in production"]
        else issues in
      issues
    else issues in
  {| SecurityChecks.passed := bool_decide (length issues = 0%nat);
     SecurityChecks.issues := issues |}.

(** ** Readings used by the statements about the validators *)

(** Every match of [r] consumes the code unit [c]. *)
Fixpoint needs (c : N) (r : Re.t) : Prop :=
  match r with
  | Re.One f => forall x, f x = true -> x = c
  | Re.Seq a b => needs c a \/ needs c b
  | _ => False
  end.

(** The shape [local@domain.tld] the e-mail pattern asks for. *)
Definition email_shaped (e : list N) : Prop :=
  exists loc dom tld,
    e = loc ++ [64%N] ++ dom ++ [46%N] ++ tld /\
    loc <> [] /\ dom <> [] /\ tld <> [] /\
    Forall (fun x => emailPart x = true) (loc ++ dom ++ tld).

(** Some code unit of [s] is in the class [f]. *)
Definition has_char (f : N -> bool) (s : list N) : Prop :=
  exists c, c ∈ s /\ f c = true.

(** [request] with one header set, as a proxy or a client would. *)
Definition with_header (request : NextRequest) (name value : string)
  : NextRequest :=
  {| method := method request;
     pathname := pathname request;
     req_headers := Headers.set name value (req_headers request);
     req_ip := req_ip request |}.

(** The path prefixes that get the no-cache headers. *)
Definition isAdminArea (request : NextRequest) : bool :=
  Js.startsWith (pathname request) "/admin" ||
  Js.startsWith (pathname request) "/moderator".

(** The names of the headers [configureCORS] writes, in lower case. *)
Definition corsHeaderNames : list string :=
  ["access-control-allow-origin"; "access-control-allow-methods";
   "access-control-allow-headers"; "access-control-max-age";
   "access-control-allow-credentials"].

(** The entry [logSecurityEvent] writes. *)
Definition eventOf (name : string) (details : list (string * string))
    (request : NextRequest) : SecurityEvent :=
  {| event := name;
     details := details;
     ev_ip := getClientIP request;
     ev_userAgent := Js.or_else (header request "user-agent") "unknown" |}.

(** The response of the middleware as it stands after the CORS step. *)
Definition afterCors (env : Env) (request : NextRequest) : NextResponse :=
  if Js.startsWith (pathname request) "/api"
  then configureCORS env request decorated_response
  else decorated_response.

(** The response of the middleware to a request no check stops. *)
Definition passResponse (env : Env) (w : World) (request : NextRequest)
  : NextResponse :=
  let response := afterCors env request in
  let response :=
    if isAdminArea request then
      set_header "Expires" "0"
        (set_header "Pragma" "no-cache"
           (set_header "Cache-Control"
              "no-store, no-cache, must-revalidate, proxy-revalidate"
              (set_header "X-Frame-Options" "SAMEORIGIN" response)))
    else response in
  let response := set_header "X-Request-ID" (requestId w) response in
  let response :=
    set_header "X-Response-Time" (Js.toString (stamp w)) response in
  if bool_decide (NODE_ENV env = "development")
  then set_header "X-Debug-IP" (getClientIP request)
         (set_header "X-Environment" "development" response)
  else response.

(** * Properties *)

(** ** The rate limiter, one step *)

Section RateLimitStep.

Variable config : RateLimitConfig.
Variable request : NextRequest.
Variable t : Z.
Variable store : gmap string RateRecord.

Let key := rateLimitKey request.

Lemma rateLimit_fresh :
  store !! key = None ->
  rateLimit config request t store =
    (None, <[key := {| count := 1; resetTime := t + windowMs config |}]> store).
Proof. unfold rateLimit, key, rateLimitKey. intros ->. reflexivity. Qed.

Lemma rateLimit_expired r :
  store !! key = Some r -> resetTime r < t ->
  rateLimit config request t store =
    (None, <[key := {| count := 1; resetTime := t + windowMs config |}]> store).
Proof.
  unfold rateLimit, key, rateLimitKey. intros -> Hlt.
  destruct (Z.gtb_spec t (resetTime r)); [reflexivity | lia].
Qed.

Lemma rateLimit_increment r :
  store !! key = Some r -> t <= resetTime r -> count r < maxRequests config ->
  rateLimit config request t store =
    (None, <[key := {| count := count r + 1; resetTime := resetTime r |}]> store).
Proof.
  unfold rateLimit, key, rateLimitKey. intros -> Hle Hlt.
  destruct (Z.gtb_spec t (resetTime r)); [lia |].
  destruct (Z.geb_spec (count r) (maxRequests config)); [lia | reflexivity].
Qed.

Lemma rateLimit_reject r :
  store !! key = Some r -> t <= resetTime r -> maxRequests config <= count r ->
  exists resp,
    rateLimit config request t store = (Some resp, store) /\
    status resp = 429 /\
    body resp = BodyJson (Js.or_else (message config) "Too many requests")
                  (Js.ceil_div (resetTime r - t) 1000) /\
    headers resp = Headers.of_entries
      [("Retry-After", Js.toString (Js.ceil_div (resetTime r - t) 1000));
       ("X-RateLimit-Limit", Js.toString (maxRequests config));
       ("X-RateLimit-Remaining", "0");
       ("X-RateLimit-Reset", Js.toString (resetTime r))].
Proof.
  unfold rateLimit, key, rateLimitKey. intros -> Hle Hge.
  destruct (Z.gtb_spec t (resetTime r)); [lia |].
  destruct (Z.geb_spec (count r) (maxRequests config)); [| lia].
  eexists. repeat split.
Qed.

(** The four ways a call can go. *)
Lemma rateLimit_cases :
  (store !! key = None /\
   rateLimit config request t store =
     (None, <[key := {| count := 1; resetTime := t + windowMs config |}]> store))
  \/ (exists r, store !! key = Some r /\ resetTime r < t /\
       rateLimit config request t store =
         (None, <[key := {| count := 1; resetTime := t + windowMs config |}]> store))
  \/ (exists r, store !! key = Some r /\ t <= resetTime r /\
       count r < maxRequests config /\
       rateLimit config request t store =
         (None, <[key := {| count := count r + 1; resetTime := resetTime r |}]> store))
  \/ (exists r resp, store !! key = Some r /\ t <= resetTime r /\
       maxRequests config <= count r /\
       rateLimit config request t store = (Some resp, store) /\
       status resp = 429 /\
       body resp = BodyJson (Js.or_else (message config) "Too many requests")
                     (Js.ceil_div (resetTime r - t) 1000) /\
       headers resp = Headers.of_entries
         [("Retry-After", Js.toString (Js.ceil_div (resetTime r - t) 1000));
          ("X-RateLimit-Limit", Js.toString (maxRequests config));
          ("X-RateLimit-Remaining", "0");
          ("X-RateLimit-Reset", Js.toString (resetTime r))]).
Proof.
  destruct (store !! key) as [r|] eqn:Hk.
  - right. destruct (Z.lt_ge_cases (resetTime r) t) as [Hlt|Hle].
    + left. exists r. eauto using rateLimit_expired.
    + right. destruct (Z.lt_ge_cases (count r) (maxRequests config)) as [Hc|Hc].
      * left. exists r. eauto using rateLimit_increment.
      * right. destruct (rateLimit_reject r Hk Hle Hc) as (resp & ? & ? & ? & ?).
        exists r, resp. eauto 10.
  - left. eauto using rateLimit_fresh.
Qed.

Lemma rateLimit_status resp :
  (rateLimit config request t store).1 = Some resp -> status resp = 429.
Proof.
  destruct rateLimit_cases as
    [[_ E] | [(r & _ & _ & E) | [(r & _ & _ & _ & E) | (r & resp' & _ & _ & _ & E & Hs & _)]]];
    rewrite E; simpl; intros; simplify_eq; done.
Qed.

End RateLimitStep.

Lemma status_set_header name value r :
  status (set_header name value r) = status r.
Proof. reflexivity. Qed.

Lemma status_configureCORS env request r :
  status (configureCORS env request r) = status r.
Proof. unfold configureCORS. destruct (_ && _); reflexivity. Qed.

(** The case analysis the middleware performs after the rate limiter
    has let the request through. *)
Ltac gate_branches :=
  cbv zeta;
  destruct (_ && negb (Js.startsWith _ "/api/sitemap"));
  try destruct (Js.startsWith _ "/admin" || _);
  cbn [fst snd negb andb orb status headers rateLimitStore];
  try reflexivity;
  destruct (Js.truthy _ && exceeds _ _);
  cbn [fst snd negb andb orb status headers rateLimitStore];
  try reflexivity;
  destruct (Regex.some_test suspiciousUrlPatterns _);
  cbn [fst snd negb andb orb status headers rateLimitStore];
  try reflexivity.

Ltac gate_unfold :=
  unfold middleware, isPreflight, rateLimited, botBlocked, oversized,
    maliciousPath, userAgentOf, policyFor, authRateLimit, apiRateLimit,
    generalRateLimit.

Ltac gate_pick_policy request :=
  destruct (Js.startsWith (pathname request) "/api/auth/");
  [| destruct (Js.startsWith (pathname request) "/api/")].

Lemma middleware_status env w request st :
  status (middleware env w request st).1 =
    if isPreflight request then 200
    else if rateLimited w request st then 429
    else if botBlocked request then 403
    else if oversized request then 413
    else if maliciousPath request then 400
    else 200.
Proof.
  gate_unfold.
  destruct (Js.startsWith (pathname request) "/api" &&
            bool_decide (method request = "OPTIONS")); [reflexivity |].
  set (resp0 := if Js.startsWith (pathname request) "/api" then _ else _).
  assert (H0 : status resp0 = 200).
  { subst resp0. destruct (Js.startsWith _ "/api");
      [apply status_configureCORS | reflexivity]. }
  clearbody resp0.
  gate_pick_policy request;
    (destruct (rateLimit _ request (now w) (rateLimitStore st))
       as [[resp|] store'] eqn:E;
     [ rewrite (bool_decide_true (is_Some _)) by (cbn [fst]; eauto);
       apply (f_equal fst), rateLimit_status in E; exact E
     | rewrite (bool_decide_false (is_Some _))
         by (cbn [fst]; intros [? ?]; discriminate) ]);
    cbv zeta;
    match goal with
    | |- context [if Js.startsWith ?p "/admin" || Js.startsWith ?p "/moderator"
                  then (?a, ?b) else (?c, ?d)] =>
        set (pr := if Js.startsWith p "/admin" || Js.startsWith p "/moderator"
                   then (a, b) else (c, d));
        assert (H1 : status pr.1 = 200)
          by (subst pr; destruct (_ || Js.startsWith p "/moderator");
              cbn [fst]; rewrite ?status_set_header; exact H0);
        clearbody pr; destruct pr as [resp1 log1]; cbn [fst] in H1
    end;
    gate_branches;
    destruct (bool_decide (NODE_ENV env = "development"));
    cbn [fst negb andb orb status]; rewrite ?status_set_header; exact H1.
Qed.

(** A request the rate limiter rejects is answered with the rate
    limiter's own response. *)
Lemma middleware_rate_limited env w request st resp :
  isPreflight request = false ->
  (rateLimit (policyFor (pathname request)) request (now w)
     (rateLimitStore st)).1 = Some resp ->
  (middleware env w request st).1 = resp.
Proof.
  gate_unfold. intros -> E. revert E.
  gate_pick_policy request;
    destruct (rateLimit _ request (now w) (rateLimitStore st))
      as [[r|] store']; cbn [fst]; intros E; simplify_eq; reflexivity.
Qed.

(** The responses of the three threat rejections. *)
Lemma middleware_threat_response env w request st :
  isPreflight request = false ->
  rateLimited w request st = false ->
  botBlocked request || oversized request || maliciousPath request = true ->
  (middleware env w request st).1 =
    if botBlocked request then
      {| status := 403; headers := ∅; body := BodyText "Access Denied" |}
    else if oversized request then
      {| status := 413; headers := ∅; body := BodyText "Request Too Large" |}
    else
      {| status := 400; headers := ∅; body := BodyText "Bad Request" |}.
Proof.
  gate_unfold. intros -> Hrl. revert Hrl.
  gate_pick_policy request;
    (destruct (rateLimit _ request (now w) (rateLimitStore st))
       as [[resp|] store'] eqn:E;
     [ rewrite (bool_decide_true (is_Some _)) by (cbn [fst]; eauto);
       discriminate
     | intros _ ]);
    cbv zeta;
    destruct (if Js.startsWith _ "/admin" || Js.startsWith _ "/moderator"
              then _ else _) as [resp1 log1];
    gate_branches; discriminate.
Qed.

(** Every request that is not a preflight goes through the rate limiter
    of its traffic class, whatever the gate decides afterwards; a
    preflight leaves the counters alone. *)
Lemma middleware_store env w request st :
  rateLimitStore (middleware env w request st).2 =
    if isPreflight request then rateLimitStore st
    else (rateLimit (policyFor (pathname request)) request (now w)
            (rateLimitStore st)).2.
Proof.
  gate_unfold.
  destruct (Js.startsWith (pathname request) "/api" &&
            bool_decide (method request = "OPTIONS")); [reflexivity |].
  gate_pick_policy request;
    (destruct (rateLimit _ request (now w) (rateLimitStore st))
       as [[resp|] store']; [reflexivity |]);
    cbv zeta;
    destruct (if Js.startsWith _ "/admin" || Js.startsWith _ "/moderator"
              then _ else _) as [resp1 log1];
    gate_branches.
Qed.

(** ** One rate limiter over a run of requests *)

Lemma serve_cons config request t rest store :
  serve config ((request, t) :: rest) store =
    ((rateLimit config request t store).1 ::
       (serve config rest (rateLimit config request t store).2).1,
     (serve config rest (rateLimit config request t store).2).2).
Proof.
  cbn [serve]. destruct (rateLimit config request t store) as [out store1].
  cbn [fst snd]. destruct (serve config rest store1) as [outs store2].
  reflexivity.
Qed.

(** Inside the window of a record with count [c], the [i]-th further
    request of the same client is let through exactly while
    [c + i] stays below the budget. *)
Lemma serve_in_window config reqs : forall store key c R i,
  (forall r t, (r, t) ∈ reqs -> rateLimitKey r = key /\ t <= R) ->
  store !! key = Some {| count := c; resetTime := R |} ->
  (i < length reqs)%nat ->
  (c + Z.of_nat i < maxRequests config ->
     (serve config reqs store).1 !! i = Some None) /\
  (maxRequests config <= c + Z.of_nat i ->
     exists resp, (serve config reqs store).1 !! i = Some (Some resp) /\
                  status resp = 429).
Proof.
  induction reqs as [|[r t] reqs IH]; intros store key c R i Hall Hk Hi;
    [cbn in Hi; lia |].
  rewrite serve_cons. cbn [fst].
  destruct (Hall r t) as [Hr Ht]; [left |]. subst key.
  assert (Hrest : forall r' t', (r', t') ∈ reqs ->
            rateLimitKey r' = rateLimitKey r /\ t' <= R)
    by (intros; apply Hall; right; assumption).
  destruct (Z.lt_ge_cases c (maxRequests config)) as [Hc|Hc].
  - rewrite (rateLimit_increment config r t store _ Hk) by (cbn; lia).
    cbn [fst snd count resetTime].
    destruct i as [|i]; cbn [lookup list_lookup].
    + split; [reflexivity | lia].
    + cbn in Hi.
      destruct (IH (<[rateLimitKey r := {| count := c + 1; resetTime := R |}]> store)
                  (rateLimitKey r) (c + 1) R i Hrest) as [Ha Hb];
        [apply lookup_insert_eq | lia |].
      split; intros; [apply Ha | apply Hb]; lia.
  - destruct (rateLimit_reject config r t store _ Hk) as (resp & E & Hs & _);
      [cbn; lia.. |].
    rewrite E. cbn [fst snd].
    destruct i as [|i]; cbn [lookup list_lookup].
    + split; [lia | eauto].
    + cbn in Hi.
      destruct (IH store (rateLimitKey r) c R i Hrest Hk) as [Ha Hb]; [lia |].
      split; intros; [apply Ha | apply Hb]; lia.
Qed.

(** C1. Under a policy with budget [N = maxRequests > 0], when [N + 1]
    requests of one client identity are evaluated, the first on a store
    with no record for that identity and the others no later than the
    end of the window the first one opens, requests 1 to [N] are let
    through and request [N + 1] is rejected with status 429. *)
Theorem C1_budget_per_window config ip first t0 rest store :
  0 < maxRequests config ->
  getClientIP first = ip ->
  (forall r t, (r, t) ∈ rest ->
     getClientIP r = ip /\ t <= t0 + windowMs config) ->
  store !! ("rate_limit:" +:+ ip) = None ->
  length rest = Z.to_nat (maxRequests config) ->
  (forall i, (i < Z.to_nat (maxRequests config))%nat ->
     (serve config ((first, t0) :: rest) store).1 !! i = Some None) /\
  (exists resp,
     (serve config ((first, t0) :: rest) store).1
       !! Z.to_nat (maxRequests config) = Some (Some resp) /\
     status resp = 429).
Proof.
  intros HN Hfirst Hrest Hfresh Hlen.
  rewrite serve_cons. cbn [fst].
  assert (Hk : store !! rateLimitKey first = None)
    by (unfold rateLimitKey; rewrite Hfirst; exact Hfresh).
  rewrite (rateLimit_fresh config first t0 store Hk). cbn [fst snd].
  set (store1 := <[rateLimitKey first := _]> store).
  assert (Hwin : forall r t, (r, t) ∈ rest ->
            rateLimitKey r = rateLimitKey first /\ t <= t0 + windowMs config).
  { intros r t Hin. destruct (Hrest r t Hin) as [Hr Ht].
    unfold rateLimitKey. rewrite Hr, Hfirst. auto. }
  assert (H1 : store1 !! rateLimitKey first =
               Some {| count := 1; resetTime := t0 + windowMs config |})
    by apply lookup_insert_eq.
  split.
  - intros [|i] Hi; [reflexivity |]. cbn [lookup list_lookup].
    apply (serve_in_window config rest store1 _ 1 _ i Hwin H1); lia.
  - destruct (Z.to_nat (maxRequests config)) as [|n] eqn:En; [lia |].
    cbn [lookup list_lookup].
    apply (serve_in_window config rest store1 _ 1 _ n Hwin H1); lia.
Qed.

Lemma C1_budget_per_window_witness :
  (serve scenarioA_policy
     [(scenarioA_request, 1000); (scenarioA_request, 1005);
      (scenarioA_request, 1010)] ∅).1 !! 0%nat = Some None /\
  (serve scenarioA_policy
     [(scenarioA_request, 1000); (scenarioA_request, 1005);
      (scenarioA_request, 1010)] ∅).1 !! 1%nat = Some None /\
  exists resp,
    (serve scenarioA_policy
       [(scenarioA_request, 1000); (scenarioA_request, 1005);
        (scenarioA_request, 1010)] ∅).1 !! 2%nat = Some (Some resp) /\
    status resp = 429.
Proof.
  destruct (C1_budget_per_window scenarioA_policy "203.0.113.7"
              scenarioA_request 1000
              [(scenarioA_request, 1005); (scenarioA_request, 1010)] ∅)
    as [Hallow Hreject].
  - reflexivity.
  - vm_compute. reflexivity.
  - intros r t Hin.
    apply elem_of_cons in Hin as [Hin | Hin];
      [| apply elem_of_cons in Hin as [Hin | Hin];
         [| apply elem_of_nil in Hin; contradiction]];
      injection Hin as -> ->; split; [vm_compute; reflexivity | cbn; lia
                                     | vm_compute; reflexivity | cbn; lia].
  - reflexivity.
  - reflexivity.
  - split; [apply (Hallow 0%nat); cbn; lia |].
    split; [apply (Hallow 1%nat); cbn; lia |].
    exact Hreject.
Defined.

(** ** Window expiry *)

Lemma reachable_count_pos store :
  reachable store -> forall k r, store !! k = Some r -> 1 <= count r.
Proof.
  induction 1 as [|config request t store _ IH]; intros k r Hk.
  - rewrite lookup_empty in Hk. discriminate.
  - destruct (rateLimit_cases config request t store)
      as [[_ E] | [(r0 & _ & _ & E)
         | [(r0 & H0 & _ & _ & E) | (r0 & resp & _ & _ & _ & E & _)]]];
      rewrite E in Hk; cbn [snd] in Hk; eauto;
      (destruct (decide (rateLimitKey request = k)) as [<-|Hne];
       [rewrite lookup_insert_eq in Hk; injection Hk as <-; cbn;
        try lia; specialize (IH _ _ H0); lia
       | rewrite lookup_insert_ne in Hk by assumption; eauto]).
Qed.

(** A window that is open keeps the [resetTime] it was opened with. *)
Lemma window_open_record config key start store :
  window_open config key start store ->
  exists c, store !! key =
              Some {| count := c; resetTime := start + windowMs config |}.
Proof.
  induction 1 as [request store Hkey Hopen
                 | config' request t store _ [c IH] Hle].
  - exists 1. subst key.
    destruct Hopen as [Hk | (r & Hk & Hgt)].
    + rewrite (rateLimit_fresh config request start store Hk).
      apply lookup_insert_eq.
    + rewrite (rateLimit_expired config request start store r Hk) by lia.
      apply lookup_insert_eq.
  - destruct (decide (rateLimitKey request = key)) as [Heq | Hne].
    + specialize (Hle Heq). subst key.
      destruct (Z.lt_ge_cases c (maxRequests config')) as [Hc | Hc].
      * rewrite (rateLimit_increment config' request t store _ IH)
          by (cbn; lia).
        eexists. apply lookup_insert_eq.
      * destruct (rateLimit_reject config' request t store _ IH)
          as (resp & E & _); [cbn; lia .. |].
        rewrite E. exists c. exact IH.
    + exists c.
      destruct (rateLimit_cases config' request t store)
        as [[_ E] | [(r0 & _ & _ & E)
           | [(r0 & _ & _ & _ & E) | (r0 & resp & _ & _ & _ & E & _)]]];
        rewrite E; cbn [snd]; try exact IH;
        rewrite lookup_insert_ne by assumption; exact IH.
Qed.

(** C5, amended. For every store the gate can be in, the rate limiter
    opens a fresh window [{count: 1, resetTime: now + windowMs}] and lets
    the request through exactly when the client has no record or
    [now > record.resetTime].  So once more than [windowMs] has elapsed
    since the client's window was opened by a limiter of the same
    policy, whatever limiter calls came in between, the next request
    is let through and opens a fresh window, whatever the count was. *)
Theorem C5_fresh_window_iff config request t store :
  reachable store ->
  (rateLimit config request t store =
     (None, <[rateLimitKey request :=
                {| count := 1; resetTime := t + windowMs config |}]> store)
   <-> (store !! rateLimitKey request = None \/
        exists r, store !! rateLimitKey request = Some r /\ t > resetTime r))
  /\ (forall start,
        window_open config (rateLimitKey request) start store ->
        t > start + windowMs config ->
        rateLimit config request t store =
          (None, <[rateLimitKey request :=
                     {| count := 1; resetTime := t + windowMs config |}]>
                   store)).
Proof.
  intros Hreach. split; [split |].
  - intros E.
    destruct (store !! rateLimitKey request) as [r|] eqn:Hk; [right | now left].
    exists r. split; [reflexivity |].
    destruct (Z.lt_ge_cases (resetTime r) t) as [Hlt|Hle]; [lia |].
    exfalso.
    destruct (Z.lt_ge_cases (count r) (maxRequests config)) as [Hc|Hc].
    + rewrite (rateLimit_increment config request t store r Hk Hle Hc) in E.
      apply (f_equal (fun p => p.2 !! rateLimitKey request)) in E.
      cbn [snd] in E. rewrite !lookup_insert_eq in E.
      injection E as Hcount _.
      pose proof (reachable_count_pos store Hreach _ _ Hk). lia.
    + destruct (rateLimit_reject config request t store r Hk Hle Hc)
        as (resp & E' & _).
      rewrite E' in E. discriminate.
  - intros [Hk | (r & Hk & Hgt)].
    + apply rateLimit_fresh. exact Hk.
    + apply (rateLimit_expired config request t store r Hk). lia.
  - intros start Hopen Hgt.
    destruct (window_open_record _ _ _ _ Hopen) as [c Hk].
    apply (rateLimit_expired config request t store _ Hk). cbn. lia.
Qed.

Lemma C5_fresh_window_iff_witness :
  reachable store_after_third /\
  store_after_third !! rateLimitKey scenarioA_request =
    Some {| count := maxRequests scenarioA_policy; resetTime := 61000 |} /\
  (rateLimit scenarioA_policy scenarioA_request 61000 store_after_third).1
    <> None /\
  rateLimit scenarioA_policy scenarioA_request 61001 store_after_third =
    (None, <[rateLimitKey scenarioA_request :=
               {| count := 1; resetTime := 121001 |}]> store_after_third).
Proof.
  assert (Hreach : reachable store_after_third)
    by (do 3 apply reachable_step; exact reachable_start).
  assert (Hopen : window_open scenarioA_policy (rateLimitKey scenarioA_request)
                    1000 store_after_third).
  { do 2 (apply window_kept; [| intros _; cbn; lia]).
    apply window_opened; [reflexivity | left; reflexivity]. }
  split; [exact Hreach |].
  split; [vm_compute; reflexivity |].
  split; [vm_compute; discriminate |].
  apply (proj2 (C5_fresh_window_iff scenarioA_policy scenarioA_request 61001
                  store_after_third Hreach) 1000 Hopen).
  cbn. lia.
Defined.

(** Without the same policy the window's length says nothing: the
    record sixty API calls leave belongs to a 15-minute window, and a
    page view one minute and a millisecond later, judged by the
    one-minute policy, is rejected. *)
Lemma expiry_under_another_policy :
  let request := mkRequest "GET" "/" [] None in
  let store := (serve apiRateLimitConfig (replicate 60 (request, 0)) ∅).2 in
  store !! rateLimitKey request = Some {| count := 60; resetTime := 900000 |} /\
  60001 > 0 + windowMs generalRateLimitConfig /\
  option_map status (rateLimit generalRateLimitConfig request 60001 store).1
    = Some 429.
Proof. cbv zeta. split; [| split]; vm_compute; reflexivity. Qed.

(** C5 as stated fails when [now] equals [resetTime]: the window is
    taken to be still open and the record is counted up, not replaced. *)
Lemma C5_counterexample :
  (exists r, store_after_first !! rateLimitKey scenarioA_request = Some r /\
             61000 >= resetTime r) /\
  rateLimit scenarioA_policy scenarioA_request 61000 store_after_first <>
    (None, <[rateLimitKey scenarioA_request :=
               {| count := 1;
                  resetTime := 61000 + windowMs scenarioA_policy |}]>
             store_after_first) /\
  (rateLimit scenarioA_policy scenarioA_request 61000 store_after_first).2
    !! rateLimitKey scenarioA_request =
    Some {| count := 2; resetTime := 61000 |}.
Proof.
  split; [| split].
  - exists {| count := 1; resetTime := 61000 |}.
    split; [vm_compute; reflexivity | cbn; lia].
  - intros E.
    apply (f_equal (fun p => p.2 !! rateLimitKey scenarioA_request)) in E.
    vm_compute in E. discriminate.
  - vm_compute. reflexivity.
Qed.

(** ** Retry-After *)




Lemma rate_limit_headers (a b c d : string) :
  Headers.get "Retry-After"
    (Headers.of_entries
       [("Retry-After", a); ("X-RateLimit-Limit", b);
        ("X-RateLimit-Remaining", c); ("X-RateLimit-Reset", d)]) = Some a /\
  Headers.get "X-RateLimit-Reset"
    (Headers.of_entries
       [("Retry-After", a); ("X-RateLimit-Limit", b);
        ("X-RateLimit-Remaining", c); ("X-RateLimit-Reset", d)]) = Some d.
Proof. split; vm_compute; reflexivity. Qed.






(** ** One counter per client, whatever the traffic class *)

(** C10. The counter key is ["rate_limit:"] followed by the derived
    client IP and nothing else: a call touches no other key, and two
    requests with the same derived IP are indistinguishable to a
    limiter.  Hence a record left by a limiter of one policy is the
    record a limiter of any other policy consults for that client, with
    the count and the reset time it finds there; and the middleware
    passes every request that is not a preflight to the limiter of its
    class over the one shared store. *)
Theorem C10_one_counter_per_client :
  (forall config request t store k,
     k <> "rate_limit:" +:+ getClientIP request ->
     (rateLimit config request t store).2 !! k = store !! k) /\
  (forall config r1 r2 t store,
     getClientIP r1 = getClientIP r2 ->
     rateLimit config r1 t store = rateLimit config r2 t store) /\
  (forall c1 c2 r1 r2 t1 t2 store,
     getClientIP r1 = getClientIP r2 ->
     let key := "rate_limit:" +:+ getClientIP r1 in
     let store1 := (rateLimit c1 r1 t1 store).2 in
     exists rec,
       store1 !! key = Some rec /\
       (store !! key = None ->
          rec = {| count := 1; resetTime := t1 + windowMs c1 |}) /\
       (t2 <= resetTime rec -> count rec < maxRequests c2 ->
          rateLimit c2 r2 t2 store1 =
            (None, <[key := {| count := count rec + 1;
                               resetTime := resetTime rec |}]> store1)) /\
       (t2 <= resetTime rec -> maxRequests c2 <= count rec ->
          exists resp,
            rateLimit c2 r2 t2 store1 = (Some resp, store1) /\
            status resp = 429 /\
            Headers.get "X-RateLimit-Reset" (headers resp) =
              Some (Js.toString (resetTime rec)))) /\
  (forall env w request st,
     isPreflight request = false ->
     rateLimitStore (middleware env w request st).2 =
       (rateLimit (policyFor (pathname request)) request (now w)
          (rateLimitStore st)).2).
Proof.
  split; [| split; [| split]].
  - intros config request t store k Hne.
    destruct (rateLimit_cases config request t store)
      as [[_ E] | [(r0 & _ & _ & E)
         | [(r0 & _ & _ & _ & E) | (r0 & resp & _ & _ & _ & E & _)]]];
      rewrite E; cbn [snd]; try reflexivity;
      apply lookup_insert_ne; unfold rateLimitKey; congruence.
  - intros config r1 r2 t store Hip. unfold rateLimit. rewrite Hip. reflexivity.
  - intros c1 c2 r1 r2 t1 t2 store Hip key store1.
    assert (Hkey : rateLimitKey r2 = key)
      by (subst key; unfold rateLimitKey; rewrite Hip; reflexivity).
    assert (Hrec : exists rec, store1 !! key = Some rec /\
              (store !! key = None ->
                 rec = {| count := 1; resetTime := t1 + windowMs c1 |})).
    { subst store1 key. fold (rateLimitKey r1).
      destruct (rateLimit_cases c1 r1 t1 store)
        as [[Hk E] | [(r0 & Hk & _ & E)
           | [(r0 & Hk & _ & _ & E) | (r0 & resp & Hk & _ & _ & E & _)]]];
        rewrite E; cbn [snd]; rewrite ?lookup_insert_eq;
        eexists; (split; [first [reflexivity | eassumption] |]);
        intros Hnone; congruence. }
    destruct Hrec as (rec & H1 & Hfresh).
    exists rec. split; [exact H1 |]. split; [exact Hfresh |].
    rewrite <- Hkey in H1 |- *. split.
    + intros Ht Hmax. apply (rateLimit_increment c2 r2 t2 store1 _ H1 Ht Hmax).
    + intros Ht Hmax.
      destruct (rateLimit_reject c2 r2 t2 store1 _ H1 Ht Hmax)
        as (resp & E & Hs & _ & Hh).
      exists resp. split; [exact E |]. split; [exact Hs |].
      rewrite Hh. apply rate_limit_headers.
  - intros env w request st Hpre.
    rewrite middleware_store, Hpre. reflexivity.
Qed.

Lemma C10_one_counter_per_client_witness :
  getClientIP home_request = getClientIP login_request /\
  exists rec,
    (rateLimit (policyFor "/") home_request 1000 ∅).2
      !! "rate_limit:198.51.100.4" = Some rec /\
    rec = {| count := 1; resetTime := 61000 |} /\
    rateLimit (policyFor "/api/auth/login") login_request 2000
      (rateLimit (policyFor "/") home_request 1000 ∅).2 =
      (None,
       <["rate_limit:198.51.100.4" := {| count := 2; resetTime := 61000 |}]>
         (rateLimit (policyFor "/") home_request 1000 ∅).2).
Proof.
  assert (Hip : getClientIP home_request = getClientIP login_request)
    by (vm_compute; reflexivity).
  split; [exact Hip |].
  destruct (proj1 (proj2 (proj2 C10_one_counter_per_client))
              (policyFor "/") (policyFor "/api/auth/login")
              home_request login_request 1000 2000 ∅ Hip)
    as (rec & Hrec & Hfresh & Hinc & _).
  specialize (Hfresh (lookup_empty _)).
  exists rec. split; [exact Hrec |]. split; [exact Hfresh |].
  subst rec. apply Hinc; [vm_compute; discriminate | vm_compute; reflexivity].
Defined.

(** Five page views use up the budget of the authentication class:
    the first request to an authentication endpoint is rejected. *)
Example page_views_exhaust_auth_budget :
  map status
    (run prodEnv
       (replicate 5 (world0, home_request) ++ [(world0, login_request)])
       emptyState).1 = [200; 200; 200; 200; 200; 429].
Proof. vm_compute. reflexivity. Qed.

(** ** What the patterns mean *)

Section Strings.

Lemma app_cons a (s t : string) : String a s +:+ t = String a (s +:+ t).
Proof. reflexivity. Qed.

Lemma app_empty_l (t : string) : EmptyString +:+ t = t.
Proof. reflexivity. Qed.

Lemma app_empty_r (s : string) : s +:+ EmptyString = s.
Proof. induction s as [|a s IH]; [reflexivity |]. rewrite app_cons, IH. reflexivity. Qed.

Lemma app_assoc3 (a b c : string) : (a +:+ b) +:+ c = a +:+ b +:+ c.
Proof.
  induction a as [|x a IH]; [reflexivity |]. rewrite !app_cons, IH. reflexivity.
Qed.

Lemma lower_app (a b : string) : Js.lower (a +:+ b) = Js.lower a +:+ Js.lower b.
Proof.
  induction a as [|x a IH]; [reflexivity |].
  rewrite app_cons. cbn [Js.lower]. rewrite IH. reflexivity.
Qed.

Lemma lower_split (x y : string) : forall s,
  Js.lower s = x +:+ y ->
  exists a b, s = a +:+ b /\ Js.lower a = x /\ Js.lower b = y.
Proof.
  induction x as [|c x IH]; intros s Hs.
  - exists EmptyString, s. auto.
  - destruct s as [|d s]; [discriminate |].
    cbn [Js.lower] in Hs. rewrite app_cons in Hs. injection Hs as Hc Hs.
    destruct (IH s Hs) as (a & b & -> & Ha & Hb).
    exists (String d a), b. cbn [Js.lower]. rewrite Ha, Hc. auto.
Qed.

Lemma line_terminator_lower c :
  Js.is_line_terminator (Js.lower_char c) = Js.is_line_terminator c.
Proof. destruct c as [[] [] [] [] [] [] [] []]; reflexivity. Qed.

Lemma dot_run_lower (g : string) : dot_run (Js.lower g) = dot_run g.
Proof.
  induction g as [|c g IH]; [reflexivity |].
  cbn [Js.lower dot_run]. rewrite line_terminator_lower, IH. reflexivity.
Qed.

Lemma startsWith_spec (s p : string) :
  Js.startsWith s p = true <-> has_prefix p s.
Proof.
  unfold has_prefix. revert s.
  induction p as [|a p IH]; intros s; cbn [Js.startsWith].
  - split; [exists s; reflexivity | reflexivity].
  - destruct s as [|b s].
    + split; [discriminate | intros [rest H]; discriminate].
    + rewrite andb_true_iff, bool_decide_eq_true, IH. split.
      * intros [-> [rest ->]]. exists rest. reflexivity.
      * intros [rest H]. rewrite app_cons in H. injection H as -> ->. eauto.
Qed.

Lemma strip_prefix_spec (p : string) : forall s s',
  Regex.strip_prefix p s = Some s' <-> s = p +:+ s'.
Proof.
  induction p as [|a p IH]; intros s s'; cbn [Regex.strip_prefix].
  - rewrite app_empty_l. split; congruence.
  - destruct s as [|b s]; [split; discriminate |].
    rewrite app_cons. case_bool_decide as Hab.
    + subst b. rewrite IH. split; congruence.
    + split; [discriminate | congruence].
Qed.

Lemma match_here_star rest s :
  Regex.match_here (Regex.AnyStar :: rest) s =
    Regex.match_here rest s ||
    match s with
    | String c s' =>
        negb (Js.is_line_terminator c) &&
        Regex.match_here (Regex.AnyStar :: rest) s'
    | EmptyString => false
    end.
Proof. destruct s; reflexivity. Qed.

Lemma match_here_spec ats : forall s,
  Regex.match_here ats s = true <->
  exists m post, s = m +:+ post /\ matches ats m.
Proof.
  induction ats as [|[p|] rest IH]; intros s.
  - split; [| reflexivity]. intros _. exists EmptyString, s.
    split; [reflexivity | constructor].
  - cbn [Regex.match_here]. split.
    + destruct (Regex.strip_prefix p s) as [s'|] eqn:E; [| discriminate].
      apply strip_prefix_spec in E. rewrite IH. intros (m & post & -> & Hm).
      exists (p +:+ m), post. rewrite app_assoc3. split; [assumption |].
      constructor. assumption.
    + intros (m & post & -> & Hm). inversion Hm as [|p' rest' m' Hm'|]; subst.
      rewrite app_assoc3.
      rewrite (proj2 (strip_prefix_spec p _ (m' +:+ post)) eq_refl).
      apply IH. eauto.
  - split.
    + induction s as [|c s IHs]; rewrite match_here_star, orb_true_iff.
      * intros [H | H]; [| discriminate]. apply IH in H as (m & post & E & Hm).
        exists (EmptyString +:+ m), post. split; [exact E |].
        constructor; [reflexivity | assumption].
      * intros [H | H].
        -- apply IH in H as (m & post & E & Hm).
           exists (EmptyString +:+ m), post. split; [exact E |].
           constructor; [reflexivity | assumption].
        -- apply andb_true_iff in H as [Hc H].
           destruct (IHs H) as (m & post & -> & Hm).
           inversion Hm as [| |g rest' m' Hg Hm']; subst.
           exists (String c g +:+ m'), post. split; [reflexivity |].
           constructor; [cbn [dot_run]; rewrite Hc, Hg; reflexivity | assumption].
    + intros (m & post & -> & Hm). inversion Hm as [| |g rest' m' Hg Hm']; subst.
      clear Hm. induction g as [|c g IHg]; rewrite match_here_star, orb_true_iff.
      * left. apply IH. exists m', post. rewrite app_empty_l. auto.
      * right. cbn [dot_run] in Hg. apply andb_true_iff in Hg as [Hc Hg].
        rewrite !app_cons, Hc. cbn [andb]. apply IHg. assumption.
Qed.

Lemma search_spec ats : forall s,
  Regex.search ats s = true <->
  exists pre m post, s = pre +:+ m +:+ post /\ matches ats m.
Proof.
  induction s as [|c s IHs]; cbn [Regex.search]; rewrite orb_true_iff, match_here_spec.
  - split.
    + intros [(m & post & E & Hm) | H]; [| discriminate].
      exists EmptyString, m, post. auto.
    + intros (pre & m & post & E & Hm). left.
      destruct pre; [| discriminate]. rewrite app_empty_l in E. eauto.
  - rewrite IHs. split.
    + intros [(m & post & E & Hm) | (pre & m & post & -> & Hm)].
      * exists EmptyString, m, post. auto.
      * exists (String c pre), m, post. auto.
    + intros (pre & m & post & E & Hm). destruct pre as [|d pre].
      * left. rewrite app_empty_l in E. eauto.
      * right. rewrite app_cons in E. injection E as -> ->. eauto.
Qed.

Lemma matches_single p m : matches [Regex.Lit p] m <-> m = p.
Proof.
  split.
  - intros H. inversion H as [|p' rest m' Hm|]; subst.
    inversion Hm. apply app_empty_r.
  - intros ->. rewrite <- (app_empty_r p) at 2. repeat constructor.
Qed.

Lemma test_literal p s :
  Regex.test (Regex.mk [Regex.Lit p] false) s = true <-> contains p s.
Proof.
  unfold Regex.test, contains. cbn [Regex.ignoreCase Regex.atoms].
  rewrite search_spec. split.
  - intros (pre & m & post & -> & Hm). apply matches_single in Hm as ->. eauto.
  - intros (pre & post & ->). exists pre, p, post.
    split; [reflexivity | apply matches_single; reflexivity].
Qed.

Lemma test_literal_ci p s :
  Regex.test (Regex.mk [Regex.Lit p] true) s = true <-> contains_ci p s.
Proof.
  unfold Regex.test, contains_ci.
  cbn [Regex.ignoreCase Regex.atoms map Regex.fold_atom].
  rewrite search_spec. split.
  - intros (pre & m & post & E & Hm). apply matches_single in Hm as ->.
    apply lower_split in E as (a & bc & -> & Ha & E).
    apply lower_split in E as (b & c & -> & Hb & Hc).
    exists a, b, c. auto.
  - intros (pre & mid & post & -> & Hmid).
    exists (Js.lower pre), (Js.lower p), (Js.lower post).
    rewrite !lower_app, Hmid.
    split; [reflexivity | apply matches_single; reflexivity].
Qed.

Lemma test_union_select s :
  Regex.test
    (Regex.mk [Regex.Lit "union"; Regex.AnyStar; Regex.Lit "select"] true) s
    = true <-> union_then_select s.
Proof.
  unfold Regex.test, union_then_select.
  cbn [Regex.ignoreCase Regex.atoms map Regex.fold_atom].
  change (Js.lower "union") with "union".
  change (Js.lower "select") with "select".
  rewrite search_spec. split.
  - intros (pre & m & post & E & Hm).
    inversion Hm as [|p1 r1 m1 Hm1|]; subst.
    inversion Hm1 as [| |g r2 m2 Hg Hm2]; subst.
    apply matches_single in Hm2 as ->.
    rewrite !app_assoc3 in E.
    apply lower_split in E as (a & E1 & -> & Ha & E).
    apply lower_split in E as (u & E2 & -> & Hu & E).
    apply lower_split in E as (gap & E3 & -> & Hgap & E).
    apply lower_split in E as (sl & tl & -> & Hsl & Htl).
    exists a, u, gap, sl, tl. rewrite <- Hgap, dot_run_lower in Hg. auto.
  - intros (pre & u & gap & sl & post & -> & Hu & Hsl & Hgap).
    exists (Js.lower pre), ("union" +:+ Js.lower gap +:+ "select"), (Js.lower post).
    rewrite !lower_app, Hu, Hsl, !app_assoc3. split; [reflexivity |].
    constructor. constructor; [rewrite dot_run_lower; assumption |].
    apply matches_single. reflexivity.
Qed.

End Strings.

(** ** The threat filter *)

Lemma maliciousPath_spec request :
  maliciousPath request = true <-> malicious (pathname request).
Proof.
  unfold maliciousPath, malicious, Regex.some_test, suspiciousUrlPatterns.
  cbn [existsb]. rewrite !orb_true_iff, !test_literal, !test_literal_ci,
    test_union_select.
  intuition discriminate.
Qed.

Lemma some_test_signatures sigs s :
  Regex.some_test (map (fun p => Regex.mk [Regex.Lit p] true) sigs) s = true
  <-> exists sig, sig ∈ sigs /\ contains_ci sig s.
Proof.
  unfold Regex.some_test. induction sigs as [|p sigs IH]; cbn [map existsb].
  - split; [discriminate | intros (sig & Hin & _)].
    apply elem_of_nil in Hin. contradiction.
  - rewrite orb_true_iff, test_literal_ci, IH. split.
    + intros [H | (sig & Hin & H)]; [exists p | exists sig];
        (split; [| assumption]); [left | right; assumption].
    + intros (sig & Hin & H). apply elem_of_cons in Hin as [-> | Hin]; eauto.
Qed.

Lemma botBlocked_spec request :
  botBlocked request = true <->
  (exists sig, sig ∈ suspiciousSignatures /\
               contains_ci sig (userAgentOf request)) /\
  ~ (exists sig, sig ∈ legitimateSignatures /\
                 contains_ci sig (userAgentOf request)) /\
  ~ has_prefix "/api/robots" (pathname request) /\
  ~ has_prefix "/api/sitemap" (pathname request) /\
  (has_prefix "/admin" (pathname request) \/
   has_prefix "/api/" (pathname request)).
Proof.
  unfold botBlocked.
  change suspiciousPatterns
    with (map (fun p => Regex.mk [Regex.Lit p] true) suspiciousSignatures).
  change legitimateBots
    with (map (fun p => Regex.mk [Regex.Lit p] true) legitimateSignatures).
  rewrite !andb_true_iff, orb_true_iff, !negb_true_iff,
    <- !not_true_iff_false, !some_test_signatures, !startsWith_spec.
  tauto.
Qed.

Lemma rateLimited_true w request st :
  rateLimited w request st = true ->
  exists r resp,
    rateLimitStore st !! rateLimitKey request = Some r /\
    (rateLimit (policyFor (pathname request)) request (now w)
       (rateLimitStore st)).1 = Some resp /\
    headers resp = Headers.of_entries
      [("Retry-After", Js.toString (Js.ceil_div (resetTime r - now w) 1000));
       ("X-RateLimit-Limit",
        Js.toString (maxRequests (policyFor (pathname request))));
       ("X-RateLimit-Remaining", "0");
       ("X-RateLimit-Reset", Js.toString (resetTime r))].
Proof.
  unfold rateLimited. rewrite bool_decide_eq_true. intros [resp Hresp].
  destruct (rateLimit_cases (policyFor (pathname request)) request (now w)
              (rateLimitStore st))
    as [[_ E] | [(r0 & _ & _ & E)
       | [(r0 & _ & _ & _ & E) | (r0 & resp' & Hk & _ & _ & E & _ & _ & Hh)]]];
    rewrite E in Hresp; cbn [fst] in Hresp; try discriminate.
  injection Hresp as <-. exists r0, resp'. rewrite E. auto.
Qed.

Lemma security_header_absent (a b c d name : string) :
  name ∈ securityHeaderNames ->
  Headers.get name
    (Headers.of_entries
       [("Retry-After", a); ("X-RateLimit-Limit", b);
        ("X-RateLimit-Remaining", c); ("X-RateLimit-Reset", d)]) = None.
Proof.
  unfold securityHeaderNames, getSecurityHeaders. cbn [map fst]. intros H.
  repeat (apply elem_of_cons in H as [-> | H]; [vm_compute; reflexivity |]).
  apply elem_of_nil in H. contradiction.
Qed.

(** C3, as the code has it. Whenever the gate rejects a request (status
    429, 403, 413 or 400), the rejection response carries none of the
    headers computed by [getSecurityHeaders]: the headers set on
    [response] are left behind when a new response object is returned. *)
Theorem C3_rejections_drop_security_headers env w request st name :
  status (middleware env w request st).1 = 429 \/
  status (middleware env w request st).1 = 403 \/
  status (middleware env w request st).1 = 413 \/
  status (middleware env w request st).1 = 400 ->
  name ∈ securityHeaderNames ->
  Headers.get name (headers (middleware env w request st).1) = None.
Proof.
  intros Hs Hname.
  rewrite middleware_status in Hs.
  destruct (isPreflight request) eqn:Hpre; [lia |].
  destruct (rateLimited w request st) eqn:Hrl.
  - destruct (rateLimited_true w request st Hrl) as (r & resp & _ & Hresp & Hh).
    rewrite (middleware_rate_limited env w request st resp Hpre Hresp), Hh.
    apply security_header_absent. exact Hname.
  - rewrite (middleware_threat_response env w request st Hpre Hrl).
    + destruct (botBlocked request), (oversized request); apply lookup_empty.
    + destruct (botBlocked request), (oversized request),
        (maliciousPath request); try reflexivity; lia.
Qed.

Lemma C3_rejections_drop_security_headers_witness :
  status (middleware prodEnv world0 traversal_request emptyState).1 = 400 /\
  Headers.get "Content-Security-Policy"
    (headers (middleware prodEnv world0 traversal_request emptyState).1) = None.
Proof.
  assert (Hs : status (middleware prodEnv world0 traversal_request
                         emptyState).1 = 400) by (vm_compute; reflexivity).
  split; [exact Hs |].
  apply (C3_rejections_drop_security_headers prodEnv world0 traversal_request
           emptyState "Content-Security-Policy").
  - right. right. right. exact Hs.
  - unfold securityHeaderNames, getSecurityHeaders. cbn [map fst]. left.
Defined.

(** C4, amended. A request whose path contains [..], [/etc/passwd] or
    [/windows/system32], or, in any letter case, [<script], [union]
    followed on the same line by [select], or [eval(], is answered with
    status 400 exactly when no earlier stage has answered it: it is not
    a preflight, the rate limiter of its class lets it through, the bot
    check does not block it and its body is not oversized. *)
Theorem C4_malicious_path env w request st :
  malicious (pathname request) ->
  (status (middleware env w request st).1 = 400 <->
   isPreflight request = false /\
   rateLimited w request st = false /\
   botBlocked request = false /\
   oversized request = false).
Proof.
  intros Hm. apply maliciousPath_spec in Hm.
  rewrite middleware_status, Hm.
  destruct (isPreflight request), (rateLimited w request st),
    (botBlocked request), (oversized request); intuition (try lia; discriminate).
Qed.

Lemma C4_malicious_path_witness :
  malicious (pathname traversal_request) /\
  status (middleware prodEnv world0 traversal_request emptyState).1 = 400.
Proof.
  assert (Hm : malicious (pathname traversal_request))
    by (left; exists "/", "/../etc/passwd"; reflexivity).
  split; [exact Hm |].
  apply (C4_malicious_path prodEnv world0 traversal_request emptyState Hm).
  repeat split; vm_compute; reflexivity.
Defined.

(** C4 as stated fails for a client that is over budget: after sixty
    page views in one minute the traversal request is answered 429. *)
Lemma C4_counterexample :
  malicious (pathname traversal_request) /\
  map status
    (run prodEnv
       (replicate 60 (world0, mkRequest "GET" "/" [] None) ++
        [(world0, traversal_request)]) emptyState).1
  = replicate 60 200 ++ [429].
Proof.
  split; [left; exists "/", "/../etc/passwd"; reflexivity |].
  vm_compute. reflexivity.
Qed.

(** C2, amended. The gate answers 413 exactly when the request is not
    a preflight, the rate limiter of its class lets it through, the bot
    check does not block it and its [content-length] header parses to
    more than 10 MiB, whether or not its path is malicious.  An
    oversized request that is a preflight gets 200, one over budget gets
    429, one blocked as a bot gets 403; whenever the size check is
    reached the rate limiter has already counted the request. *)
Theorem C2_oversized_body env w request st :
  (oversized request = true <->
   exists cl n,
     header request "content-length" = Some cl /\
     Js.parseInt cl = Some n /\ n > 10 * 1024 * 1024) /\
  (status (middleware env w request st).1 = 413 <->
   isPreflight request = false /\
   rateLimited w request st = false /\
   botBlocked request = false /\
   oversized request = true) /\
  (oversized request = true ->
   status (middleware env w request st).1 =
     if isPreflight request then 200
     else if rateLimited w request st then 429
     else if botBlocked request then 403
     else 413) /\
  (status (middleware env w request st).1 = 413 ->
   rateLimitStore (middleware env w request st).2 =
     (rateLimit (policyFor (pathname request)) request (now w)
        (rateLimitStore st)).2).
Proof.
  assert (Hstatus : status (middleware env w request st).1 = 413 <->
                    isPreflight request = false /\
                    rateLimited w request st = false /\
                    botBlocked request = false /\
                    oversized request = true).
  { rewrite middleware_status.
    destruct (isPreflight request), (rateLimited w request st),
      (botBlocked request), (oversized request), (maliciousPath request);
      intuition (try lia; discriminate). }
  split; [| split; [exact Hstatus | split]].
  - unfold oversized.
    destruct (header request "content-length") as [cl|] eqn:Hcl;
      [| split; [discriminate | intros (cl & n & E & _); discriminate]].
    change (default EmptyString (Some cl)) with cl.
    destruct (Js.parseInt cl) as [n|] eqn:Hparse; cbn [exceeds].
    + split.
      * intros H. apply andb_true_iff in H as [_ H].
        exists cl, n. split; [reflexivity |]. split; [exact Hparse |].
        apply Z.gtb_lt in H. lia.
      * intros (cl' & n' & E & Hp & Hn). injection E as <-.
        rewrite Hparse in Hp. injection Hp as <-.
        destruct cl as [|c cl]; [discriminate |]. cbn [Js.truthy andb].
        apply Z.gtb_lt. lia.
    + rewrite andb_false_r.
      split; [discriminate |].
      intros (cl' & n' & E & Hp & _). injection E as <-.
      rewrite Hparse in Hp. discriminate.
  - intros Hbig. rewrite middleware_status, Hbig. reflexivity.
  - intros H. apply Hstatus in H as (Hpre & _).
    rewrite middleware_store, Hpre. reflexivity.
Qed.

Lemma C2_oversized_body_witness :
  malicious (pathname upload_request) /\
  status (middleware prodEnv world0 upload_request emptyState).1 = 413 /\
  rateLimitStore (middleware prodEnv world0 upload_request emptyState).2
    !! "rate_limit:unknown" =
    Some {| count := 1; resetTime := now world0 + 60000 |}.
Proof.
  split; [right; left; exists "/uploads", EmptyString; reflexivity |].
  destruct (C2_oversized_body prodEnv world0 upload_request emptyState)
    as (_ & Hstatus & _ & Hstore).
  assert (Hs : status (middleware prodEnv world0 upload_request emptyState).1
               = 413)
    by (apply Hstatus; repeat split; vm_compute; reflexivity).
  split; [exact Hs |]. rewrite (Hstore Hs). vm_compute. reflexivity.
Defined.

(** C2 as stated fails for a client that is over budget: after sixty
    page views in one minute the oversized request is answered 429; a
    scraper posting an oversized body to an API path is answered 403;
    and an oversized preflight is answered 200. *)
Lemma C2_counterexample :
  map status
    (run prodEnv
       (replicate 60 (world0, mkRequest "GET" "/" [] None) ++
        [(world0, mkRequest "POST" "/upload"
                    [("Content-Length", "11000000")] None)]) emptyState).1
  = replicate 60 200 ++ [429] /\
  status
    (middleware prodEnv world0
       (mkRequest "POST" "/api/upload"
          [("Content-Length", "11000000"); ("User-Agent", "curl-scraper/1.0")]
          None) emptyState).1 = 403 /\
  oversized preflight_upload_request = true /\
  status (middleware prodEnv world0 preflight_upload_request emptyState).1
    = 200.
Proof. repeat split; vm_compute; reflexivity. Qed.

(** C7, amended. The bot check blocks exactly when the user agent
    contains, in any letter case, one of [bot], [crawler], [spider],
    [scraper], [scanner], contains none of the signatures of the known
    crawlers, and the path starts neither with [/api/robots] nor with
    [/api/sitemap] but starts with [/admin] or [/api/].  The gate
    answers 403 exactly when the check blocks a request that is not a
    preflight and that the rate limiter lets through.  Googlebot on
    [/admin/x] is never answered 403; [curl-scraper/1.0] on
    [/api/users] is answered 403 while its client is under budget and
    429 once it is not. *)
Theorem C7_bot_check :
  (forall request,
     botBlocked request = true <->
     (exists sig, sig ∈ suspiciousSignatures /\
                  contains_ci sig (userAgentOf request)) /\
     ~ (exists sig, sig ∈ legitimateSignatures /\
                    contains_ci sig (userAgentOf request)) /\
     ~ has_prefix "/api/robots" (pathname request) /\
     ~ has_prefix "/api/sitemap" (pathname request) /\
     (has_prefix "/admin" (pathname request) \/
      has_prefix "/api/" (pathname request))) /\
  (forall env w request st,
     status (middleware env w request st).1 = 403 <->
     isPreflight request = false /\
     rateLimited w request st = false /\
     botBlocked request = true) /\
  (forall env w st,
     botBlocked googlebot_request = false /\
     status (middleware env w googlebot_request st).1 <> 403 /\
     (rateLimited w googlebot_request st = false ->
      status (middleware env w googlebot_request st).1 = 200)) /\
  (forall env w st,
     botBlocked scraper_request = true /\
     status (middleware env w scraper_request st).1 =
       if rateLimited w scraper_request st then 429 else 403).
Proof.
  split; [exact botBlocked_spec |]. split; [| split].
  - intros env w request st.
    rewrite middleware_status.
    destruct (isPreflight request), (rateLimited w request st),
      (botBlocked request), (oversized request), (maliciousPath request);
      intuition (try lia; discriminate).
  - intros env w st.
    assert (Hbot : botBlocked googlebot_request = false)
      by (vm_compute; reflexivity).
    split; [exact Hbot |].
    rewrite middleware_status, Hbot.
    change (isPreflight googlebot_request) with false.
    change (oversized googlebot_request) with false.
    change (maliciousPath googlebot_request) with false.
    cbv iota.
    destruct (rateLimited w googlebot_request st);
      split; try lia; try reflexivity; discriminate.
  - intros env w st.
    assert (Hbot : botBlocked scraper_request = true)
      by (vm_compute; reflexivity).
    split; [exact Hbot |].
    rewrite middleware_status, Hbot.
    change (isPreflight scraper_request) with false.
    reflexivity.
Qed.

Lemma C7_bot_check_witness :
  contains_ci "scraper" (userAgentOf scraper_request) /\
  status (middleware prodEnv world0 scraper_request emptyState).1 = 403.
Proof.
  destruct C7_bot_check as (Hspec & Hgate & _ & _).
  assert (Hblocked : botBlocked scraper_request = true)
    by (vm_compute; reflexivity).
  split.
  - exists "curl-", "scraper", "/1.0". split; reflexivity.
  - apply (Hgate prodEnv world0 scraper_request emptyState).
    split; [vm_compute; reflexivity |].
    split; [vm_compute; reflexivity | exact Hblocked].
Defined.

(** C7 as stated fails for a request the bot check never sees: the
    preflight of a scraper on [/api/users] meets every condition of the
    check and is answered 200; and once the client has used up the API
    budget of one hundred, the scraper is answered 429, not 403. *)
Lemma C7_counterexample :
  botBlocked preflight_scraper_request = true /\
  status (middleware prodEnv world0 preflight_scraper_request emptyState).1
    = 200 /\
  botBlocked scraper_request = true /\
  map status
    (run prodEnv (replicate 101 (world0, scraper_request)) emptyState).1
  = replicate 100 403 ++ [429].
Proof. repeat split; vm_compute; reflexivity. Qed.

(** ** CORS *)

Lemma get_set_eq name value h :
  Headers.get name (Headers.set name value h) = Some value.
Proof. apply lookup_insert_eq. Qed.

Lemma get_set_ne name other value h :
  Js.lower other <> Js.lower name ->
  Headers.get name (Headers.set other value h) = Headers.get name h.
Proof. intros Hne. apply lookup_insert_ne. exact Hne. Qed.

Lemma allowedOrigins_spec env o :
  o <> EmptyString -> (o ∈ allowedOrigins env <-> origin_allowed env o).
Proof.
  intros Ho. unfold allowedOrigins, origin_allowed.
  destruct (NEXT_PUBLIC_APP_URL env) as [[|c u]|];
    cbn [omap list_omap Js.truthy];
    rewrite ?elem_of_cons, elem_of_nil; intuition congruence.
Qed.

(** C8. On a response that does not yet carry the header,
    [configureCORS] sets [Access-Control-Allow-Origin] to the request's
    origin exactly when that origin is the configured application URL,
    [http://localhost:3000] or [https://localhost:3000]; for any other
    origin, and when the request has no origin, the header stays
    absent. *)
Theorem C8_allow_origin env request response :
  Headers.get "Access-Control-Allow-Origin" (headers response) = None ->
  (forall v,
     Headers.get "Access-Control-Allow-Origin"
       (headers (configureCORS env request response)) = Some v <->
     header request "origin" = Some v /\ origin_allowed env v) /\
  ((forall o, header request "origin" = Some o -> ~ origin_allowed env o) ->
   Headers.get "Access-Control-Allow-Origin"
     (headers (configureCORS env request response)) = None).
Proof.
  intros Hnone.
  assert (Hget : Headers.get "Access-Control-Allow-Origin"
                   (headers (configureCORS env request response)) =
                 if Js.truthy (header request "origin") &&
                    bool_decide (default EmptyString (header request "origin")
                                   ∈ allowedOrigins env)
                 then header request "origin" else None).
  { unfold configureCORS, set_header. cbn [headers].
    rewrite !get_set_ne by (vm_compute; discriminate).
    destruct (header request "origin") as [[|c o]|];
      cbn [Js.truthy andb headers]; try exact Hnone.
    case_bool_decide; cbn [headers]; [apply get_set_eq | exact Hnone]. }
  rewrite Hget. clear Hget.
  destruct (header request "origin") as [[|c o]|] eqn:Ho;
    cbn [Js.truthy andb].
  - split.
    + intros v. split; [discriminate |]. intros [Hv Hallowed].
      injection Hv as <-. unfold origin_allowed in Hallowed.
      intuition discriminate.
    + reflexivity.
  - change (default EmptyString (Some (String c o))) with (String c o).
    case_bool_decide as Hin;
      rewrite allowedOrigins_spec in Hin by discriminate.
    + split.
      * intros v. split; [intros [= <-]; auto | intros [Hv _]; exact Hv].
      * intros Hno. exfalso. exact (Hno _ eq_refl Hin).
    + split; [| reflexivity].
      intros v. split; [discriminate |]. intros [[= <-] Hallowed]. tauto.
  - split; [| reflexivity].
    intros v. split; [discriminate | intros [Hv _]; discriminate].
Qed.

Lemma C8_allow_origin_witness :
  Headers.get "Access-Control-Allow-Origin" (headers decorated_response) = None /\
  Headers.get "Access-Control-Allow-Origin"
    (headers (configureCORS prodEnv cors_request decorated_response)) =
    Some "https://astralcore.io".
Proof.
  assert (Hnone : Headers.get "Access-Control-Allow-Origin"
                    (headers decorated_response) = None)
    by (vm_compute; reflexivity).
  split; [exact Hnone |].
  apply (proj1 (C8_allow_origin prodEnv cors_request decorated_response Hnone)).
  split; [vm_compute; reflexivity |].
  left. split; [discriminate | reflexivity].
Defined.

(** The middleware applies the CORS headers to API paths only. *)
Example cors_on_api_preflight :
  Headers.get "Access-Control-Allow-Origin"
    (headers (middleware prodEnv world0
                (mkRequest "OPTIONS" "/api/profile"
                   [("Origin", "http://localhost:3000")] None)
                emptyState).1) = Some "http://localhost:3000" /\
  Headers.get "Access-Control-Allow-Origin"
    (headers (middleware prodEnv world0
                (mkRequest "OPTIONS" "/api/profile"
                   [("Origin", "https://evil.example")] None)
                emptyState).1) = None.
Proof. split; vm_compute; reflexivity. Qed.

(** ** Client identity *)

Lemma split_comma_head_spec v :
  (v = Js.split_comma_head v \/
   exists rest, v = Js.split_comma_head v +:+ "," +:+ rest) /\
  no_comma (Js.split_comma_head v) = true.
Proof.
  induction v as [|c v [IH Hno]]; [split; [left |]; reflexivity |].
  cbn [Js.split_comma_head].
  destruct (Js.code c =? 44)%N eqn:Hc.
  - split; [| reflexivity]. right. exists v. rewrite app_empty_l.
    apply N.eqb_eq in Hc. unfold Js.code in Hc.
    rewrite <- (ascii_N_embedding c), Hc. reflexivity.
  - split.
    + destruct IH as [IH | [rest IH]].
      * left. congruence.
      * right. exists rest. rewrite app_cons. congruence.
    + cbn [no_comma]. rewrite Hc, Hno. reflexivity.
Qed.

Lemma trimStart_spec s :
  exists lead,
    s = lead +:+ Js.trimStart s /\
    all_white_space lead = true /\
    (forall c r, Js.trimStart s = String c r -> Js.is_white_space c = false).
Proof.
  induction s as [|c s (lead & Hs & Hlead & Hfirst)].
  - exists EmptyString. repeat split. discriminate.
  - cbn [Js.trimStart]. destruct (Js.is_white_space c) eqn:Hc.
    + exists (String c lead). rewrite app_cons, <- Hs.
      cbn [all_white_space]. rewrite Hc, Hlead. auto.
    + exists EmptyString. repeat split. intros c' r [= <- _]. exact Hc.
Qed.

Lemma app_eq_single (a : string) c d :
  String d EmptyString = a +:+ String c EmptyString -> a = EmptyString /\ c = d.
Proof.
  destruct a as [|x a]; [intros [= ->]; auto |].
  rewrite app_cons. intros [= _ H]. destruct a; discriminate.
Qed.

Lemma trimEnd_spec s :
  exists trail,
    s = Js.trimEnd s +:+ trail /\
    all_white_space trail = true /\
    (forall a c, Js.trimEnd s = a +:+ String c EmptyString ->
                 Js.is_white_space c = false).
Proof.
  induction s as [|c s (trail & Hs & Htrail & Hlast)].
  - exists EmptyString. repeat split. intros [|x a] c; discriminate.
  - cbn [Js.trimEnd]. destruct (Js.trimEnd s) as [|d t] eqn:Ht.
    + rewrite app_empty_l in Hs. subst trail.
      destruct (Js.is_white_space c) eqn:Hc.
      * exists (String c s). cbn [all_white_space]. rewrite Hc, Htrail.
        repeat split. intros [|x a] c'; discriminate.
      * exists s. repeat split; [assumption |].
        intros a c' H. apply app_eq_single in H as [_ ->]. exact Hc.
    + exists trail. rewrite app_cons, <- Hs. repeat split; [assumption |].
      intros [|x a] c'; [discriminate |].
      rewrite app_cons. intros [= _ H]. eapply Hlast. exact H.
Qed.

Lemma trim_spec s :
  exists lead trail,
    s = lead +:+ Js.trim s +:+ trail /\
    all_white_space lead = true /\
    all_white_space trail = true /\
    (forall c r, Js.trim s = String c r -> Js.is_white_space c = false) /\
    (forall a c, Js.trim s = a +:+ String c EmptyString ->
                 Js.is_white_space c = false).
Proof.
  unfold Js.trim.
  destruct (trimStart_spec s) as (lead & Hs & Hlead & Hfirst).
  destruct (trimEnd_spec (Js.trimStart s)) as (trail & Ht & Htrail & Hlast).
  exists lead, trail. rewrite <- Ht. repeat split; try assumption.
  intros c r H. rewrite H, app_cons in Ht. eapply Hfirst. exact Ht.
Qed.

Lemma getClientIP_unfold request :
  getClientIP request =
    match header request "x-forwarded-for" with
    | Some (String c v) => Js.trim (Js.split_comma_head (String c v))
    | _ =>
        match header request "x-real-ip" with
        | Some (String c v) => String c v
        | _ =>
            match header request "cf-connecting-ip" with
            | Some (String c v) => String c v
            | _ =>
                match req_ip request with
                | Some (String c v) => String c v
                | _ => "unknown"
                end
            end
        end
    end.
Proof.
  unfold getClientIP.
  destruct (header request "x-forwarded-for") as [[|? ?]|];
    destruct (header request "x-real-ip") as [[|? ?]|];
    destruct (header request "cf-connecting-ip") as [[|? ?]|];
    destruct (req_ip request) as [[|? ?]|]; reflexivity.
Qed.

(** C9, amended. The client identity is the trimmed first
    comma-separated hop of [x-forwarded-for] when that header is present
    and not empty; otherwise [x-real-ip] when present and not empty;
    otherwise [cf-connecting-ip] when present and not empty; otherwise
    the connection address when known and not empty; otherwise
    ["unknown"]. *)
Theorem C9_client_identity request :
  let present name v := header request name = Some v /\ v <> EmptyString in
  let absent name := forall v, header request name = Some v -> v = EmptyString in
  (forall v, present "x-forwarded-for" v ->
     getClientIP request = Js.trim (Js.split_comma_head v) /\
     first_hop_trimmed v (getClientIP request)) /\
  (absent "x-forwarded-for" ->
   forall v, present "x-real-ip" v -> getClientIP request = v) /\
  (absent "x-forwarded-for" -> absent "x-real-ip" ->
   forall v, present "cf-connecting-ip" v -> getClientIP request = v) /\
  (absent "x-forwarded-for" -> absent "x-real-ip" ->
   absent "cf-connecting-ip" ->
   forall v, req_ip request = Some v -> v <> EmptyString ->
   getClientIP request = v) /\
  (absent "x-forwarded-for" -> absent "x-real-ip" ->
   absent "cf-connecting-ip" ->
   (forall v, req_ip request = Some v -> v = EmptyString) ->
   getClientIP request = "unknown").
Proof.
  intros present absent. subst present absent. cbv beta.
  rewrite getClientIP_unfold.
  split; [| split; [| split; [| split]]].
  - intros v [-> Hv]. destruct v as [|c v]; [contradiction |].
    split; [reflexivity |].
    destruct (split_comma_head_spec (String c v)) as [Hhop Hno].
    destruct (trim_spec (Js.split_comma_head (String c v)))
      as (lead & trail & Ht & Hlead & Htrail & Hfirst & Hlast).
    exists (Js.split_comma_head (String c v)), lead, trail. auto 10.
  - intros Hxff v [Hv Hne].
    destruct (header request "x-forwarded-for") as [[|? ?]|] eqn:E;
      try (specialize (Hxff _ eq_refl); discriminate);
      rewrite Hv; (destruct v; [contradiction | reflexivity]).
  - intros Hxff Hreal v [Hv Hne].
    destruct (header request "x-forwarded-for") as [[|? ?]|] eqn:E;
      try (specialize (Hxff _ eq_refl); discriminate);
      (destruct (header request "x-real-ip") as [[|? ?]|] eqn:E';
       try (specialize (Hreal _ eq_refl); discriminate));
      rewrite Hv; (destruct v; [contradiction | reflexivity]).
  - intros Hxff Hreal Hcf v Hv Hne.
    destruct (header request "x-forwarded-for") as [[|? ?]|] eqn:E;
      try (specialize (Hxff _ eq_refl); discriminate);
      (destruct (header request "x-real-ip") as [[|? ?]|] eqn:E';
       try (specialize (Hreal _ eq_refl); discriminate));
      (destruct (header request "cf-connecting-ip") as [[|? ?]|] eqn:E'';
       try (specialize (Hcf _ eq_refl); discriminate));
      rewrite Hv; (destruct v; [contradiction | reflexivity]).
  - intros Hxff Hreal Hcf Hip.
    destruct (header request "x-forwarded-for") as [[|? ?]|] eqn:E;
      try (specialize (Hxff _ eq_refl); discriminate);
      (destruct (header request "x-real-ip") as [[|? ?]|] eqn:E';
       try (specialize (Hreal _ eq_refl); discriminate));
      (destruct (header request "cf-connecting-ip") as [[|? ?]|] eqn:E'';
       try (specialize (Hcf _ eq_refl); discriminate));
      (destruct (req_ip request) as [[|? ?]|] eqn:E''';
       try (specialize (Hip _ eq_refl); discriminate)); reflexivity.
Qed.

Lemma C9_client_identity_witness :
  header proxied_request "x-forwarded-for" = Some " 203.0.113.7 , 10.0.0.1" /\
  getClientIP proxied_request = "203.0.113.7".
Proof.
  assert (Hh : header proxied_request "x-forwarded-for" =
               Some " 203.0.113.7 , 10.0.0.1") by (vm_compute; reflexivity).
  split; [exact Hh |].
  destruct (C9_client_identity proxied_request) as [Hxff _].
  destruct (Hxff " 203.0.113.7 , 10.0.0.1") as [E _];
    [split; [exact Hh | discriminate] |].
  rewrite E. vm_compute. reflexivity.
Defined.

(** C9 as stated fails for a header that is present but empty: the code
    tests the value for truthiness and falls through to the next
    source. *)
Lemma C9_counterexample :
  header empty_forwarded_request "x-forwarded-for" = Some EmptyString /\
  identity_by_presence empty_forwarded_request = EmptyString /\
  getClientIP empty_forwarded_request = "10.0.0.1" /\
  getClientIP empty_forwarded_request <>
    identity_by_presence empty_forwarded_request.
Proof. repeat split; try (vm_compute; reflexivity). vm_compute. discriminate. Qed.

(** ** The matcher finds exactly what the patterns match *)

Section Matcher.

Lemma star_loop_sound {A : Type}
    (body : option N -> list N -> (option N -> list N -> option A) -> option A)
    (R : option N -> list N -> option N -> list N -> Prop)
    (k : option N -> list N -> option A) :
  (forall p s k' x, body p s k' = Some x ->
     exists p' s', R p s p' s' /\ k' p' s' = Some x) ->
  forall fuel p s x,
    Re.star_loop body k fuel p s = Some x ->
    exists p' s', Re.star_lang R p s p' s' /\ k p' s' = Some x.
Proof.
  intros Hbody. induction fuel as [|fuel IH]; intros p s x; cbn [Re.star_loop].
  - intros Hk. exists p, s. split; [constructor | exact Hk].
  - destruct (body p s _) as [y|] eqn:E.
    + intros [= <-]. apply Hbody in E as (p1 & s1 & HR & Hk).
      destruct (Nat.ltb_spec (length s1) (length s)); [| discriminate].
      apply IH in Hk as (p' & s' & Hstar & Hk).
      exists p', s'. split; [| exact Hk]. econstructor; eassumption.
    + intros Hk. exists p, s. split; [constructor | exact Hk].
Qed.

Lemma star_loop_complete {A : Type}
    (body : option N -> list N -> (option N -> list N -> option A) -> option A)
    (R : option N -> list N -> option N -> list N -> Prop)
    (k : option N -> list N -> option A) :
  (forall p s k' p' s', R p s p' s' -> is_Some (k' p' s') ->
     is_Some (body p s k')) ->
  forall p s p' s',
    Re.star_lang R p s p' s' -> is_Some (k p' s') ->
    forall fuel, (length s < fuel)%nat ->
    is_Some (Re.star_loop body k fuel p s).
Proof.
  intros Hbody p s p' s' Hstar Hk.
  induction Hstar as [p s | p s p1 s1 p2 s2 HR Hlt _ IH];
    intros [|fuel] Hfuel; try lia; cbn [Re.star_loop].
  - destruct (body p s _); [eauto | exact Hk].
  - destruct (body p s _) as [y|] eqn:E; [eauto |]. exfalso.
    assert (Hsome : is_Some (body p s
              (fun prev' s' =>
                 if (length s' <? length s)%nat
                 then Re.star_loop body k fuel prev' s' else None))).
    { eapply Hbody; [exact HR |].
      destruct (Nat.ltb_spec (length s1) (length s)); [| lia].
      apply IH; [exact Hk | lia]. }
    rewrite E in Hsome. destruct Hsome as [? ?]. discriminate.
Qed.

(** The matcher hands to its continuation only ends of matches, and
    tries every one of them until the continuation accepts. *)
Lemma run_adequate (r : Re.t) : forall (A : Type) p s
    (k : option N -> list N -> option A),
  (forall x, Re.run A r p s k = Some x ->
     exists p' s', Re.lang r p s p' s' /\ k p' s' = Some x) /\
  (forall p' s', Re.lang r p s p' s' -> is_Some (k p' s') ->
     is_Some (Re.run A r p s k)).
Proof.
  induction r as [|f|a IHa b IHb|a IHa|a IHa| | |]; intros A p s k;
    cbn [Re.run Re.lang].
  - split; [intros x Hx; eauto | intros p' s' [-> ->] Hk; exact Hk].
  - split.
    + intros x. destruct s as [|c s]; [discriminate |].
      destruct (f c) eqn:Hf; [| discriminate]. intros Hx.
      exists (Some c), s. eauto.
    + intros p' s' (c & -> & Hf & ->) Hk. rewrite Hf. exact Hk.
  - split.
    + intros x Hx. apply (IHa A) in Hx as (q & u & Ha & Hx).
      apply (IHb A) in Hx as (p' & s' & Hb & Hx). eauto 7.
    + intros p' s' (q & u & Ha & Hb) Hk.
      eapply (IHa A); [exact Ha |]. eapply (IHb A); eassumption.
  - split.
    + intros x. apply star_loop_sound. intros p0 s0 k' y. apply (IHa A).
    + intros p' s' Hstar Hk.
      eapply star_loop_complete; [| exact Hstar | exact Hk | lia].
      intros p0 s0 k' q u. apply (IHa A).
  - split.
    + intros x. destruct (Re.run unit a p s _) as [[]|] eqn:E; [discriminate |].
      intros Hx. exists p, s. repeat split; [| exact Hx].
      intros (q & u & Ha).
      destruct (proj2 (IHa unit p s (fun _ _ => Some tt)) q u Ha) as [y Hy];
        [eauto |]. congruence.
    + intros p' s' (-> & -> & Hno) Hk.
      destruct (Re.run unit a p s _) as [[]|] eqn:E; [| exact Hk].
      exfalso. apply Hno.
      apply (IHa unit) in E as (q & u & Ha & _). eauto.
  - split.
    + intros x. destruct (Re.word_before p), (Re.word_after s);
        cbn [xorb]; try discriminate; intros Hx; exists p, s;
        repeat split; try exact Hx; discriminate.
    + intros p' s' (-> & -> & Hne) Hk.
      destruct (Re.word_before p), (Re.word_after s); cbn [xorb];
        try exact Hk; contradiction.
  - split.
    + intros x. destruct p; [discriminate |]. intros Hx. exists None, s. auto.
    + intros p' s' (-> & -> & ->) Hk. exact Hk.
  - split.
    + intros x. destruct s; [| discriminate]. intros Hx. exists p, []. auto.
    + intros p' s' (-> & -> & ->) Hk. exact Hk.
Qed.

Lemma run_none (r : Re.t) (A : Type) p s (k : option N -> list N -> option A) :
  (forall p' s', Re.lang r p s p' s' -> k p' s' = None) ->
  Re.run A r p s k = None.
Proof.
  intros Hno. destruct (Re.run A r p s k) as [x|] eqn:E; [| reflexivity].
  apply run_adequate in E as (p' & s' & Hl & Hk).
  rewrite (Hno _ _ Hl) in Hk. discriminate.
Qed.

(** A match consumes a prefix of the input. *)
Lemma lang_suffix (r : Re.t) : forall p s p' s',
  Re.lang r p s p' s' -> exists m, s = m ++ s'.
Proof.
  induction r as [|f|a IHa b IHb|a IHa|a IHa| | |]; intros p s p' s';
    cbn [Re.lang].
  - intros [_ ->]. exists []. reflexivity.
  - intros (c & -> & _). exists [c]. reflexivity.
  - intros (q & u & Ha & Hb).
    apply IHa in Ha as [m1 ->]. apply IHb in Hb as [m2 ->].
    exists (m1 ++ m2). apply app_assoc.
  - induction 1 as [p s | p s p1 s1 p2 s2 HR _ _ [m2 ->]].
    + exists []. reflexivity.
    + apply IHa in HR as [m1 ->]. exists (m1 ++ m2). apply app_assoc.
  - intros (_ & -> & _). exists []. reflexivity.
  - intros (_ & -> & _). exists []. reflexivity.
  - intros (_ & -> & _). exists []. reflexivity.
  - intros (_ & -> & _). exists []. reflexivity.
Qed.

(** [test] looks for a match from every position, left to right. *)
Lemma test_true (r : Re.t) (s : list N) :
  Re.test r s = true <->
  exists pre post p' s',
    s = pre ++ post /\ Re.lang r (last pre) post p' s'.
Proof.
  unfold Re.test.
  assert (H : forall s p,
    is_Some (Re.search unit r p s (fun _ _ => Some tt)) <->
    exists pre post p' s',
      s = pre ++ post /\
      Re.lang r (from_option Some p (last pre)) post p' s').
  { clear s. induction s as [|c s IH]; intros p; cbn [Re.search].
    - destruct (Re.run unit r p [] _) as [[]|] eqn:E.
      + split; [intros _ | eauto].
        apply run_adequate in E as (p' & s' & Hl & _).
        exists [], [], p', s'. auto.
      + split; [intros [? ?]; discriminate |].
        intros (pre & post & p' & s' & Hs & Hl). exfalso.
        symmetry in Hs. apply app_eq_nil in Hs as [-> ->].
        destruct (proj2 (run_adequate r unit p [] (fun _ _ => Some tt))
                    p' s' Hl) as [y Hy]; [eauto | congruence].
    - destruct (Re.run unit r p (c :: s) _) as [[]|] eqn:E.
      + split; [intros _ | eauto].
        apply run_adequate in E as (p' & s' & Hl & _).
        exists [], (c :: s), p', s'. auto.
      + rewrite IH. split.
        * intros (pre & post & p' & s' & -> & Hl).
          exists (c :: pre), post, p', s'. split; [reflexivity |].
          rewrite last_cons. destruct (last pre); exact Hl.
        * intros (pre & post & p' & s' & Hs & Hl).
          destruct pre as [|d pre].
          -- exfalso. cbn in Hs, Hl. subst post.
             destruct (proj2 (run_adequate r unit p (c :: s)
                                (fun _ _ => Some tt)) p' s' Hl) as [y Hy];
               [eauto | congruence].
          -- injection Hs as <- ->. exists pre, post, p', s'.
             split; [reflexivity |].
             rewrite last_cons in Hl. destruct (last pre); exact Hl. }
  specialize (H s None).
  destruct (Re.search unit r None s _) as [[]|].
  - split; [intros _ | reflexivity].
    destruct (proj1 H) as (pre & post & p' & s' & Hs & Hl); [eauto |].
    exists pre, post, p', s'. split; [exact Hs |].
    destruct (last pre); exact Hl.
  - split; [discriminate |]. intros (pre & post & p' & s' & Hs & Hl).
    destruct (proj2 H) as [? ?]; [| discriminate].
    exists pre, post, p', s'. split; [exact Hs |].
    destruct (last pre); exact Hl.
Qed.

End Matcher.

(** ** Classes, literals and repetitions *)

Lemma test_one (f : N -> bool) (s : list N) :
  Re.test (Re.One f) s = true <-> has_char f s.
Proof.
  rewrite test_true. unfold has_char. cbn [Re.lang]. split.
  - intros (pre & post & p' & s' & -> & c & -> & Hf & _).
    exists c. split; [| exact Hf]. apply elem_of_app. right. left.
  - intros (c & Hin & Hf). apply list_elem_of_split in Hin as (pre & post & ->).
    exists pre, (c :: post), (Some c), post. eauto.
Qed.

Lemma test_one_false (f : N -> bool) (s : list N) :
  Re.test (Re.One f) s = false <-> ~ has_char f s.
Proof. rewrite <- test_one. destruct (Re.test _ s); intuition congruence. Qed.

Lemma star_one (f : N -> bool) p s p' s' :
  Re.star_lang (Re.lang (Re.One f)) p s p' s' <->
  exists m, s = m ++ s' /\ Forall (fun x => f x = true) m /\
            p' = from_option Some p (last m).
Proof.
  split.
  - induction 1 as [p s | p s p1 s1 p2 s2 (c & -> & Hf & ->) _ _
                            (m & -> & Hm & ->)].
    + exists []. auto.
    + exists (c :: m). repeat split; [constructor; assumption |].
      rewrite last_cons. destruct (last m); reflexivity.
  - intros (m & -> & Hm & ->). revert p.
    induction Hm as [|c m Hc _ IH]; intros p; [constructor |].
    apply Re.star_more with (p1 := Some c) (s1 := m ++ s').
    + exists c. auto.
    + cbn. lia.
    + rewrite last_cons. specialize (IH (Some c)).
      destruct (last m); exact IH.
Qed.

Lemma lang_at_least (f : N -> bool) (n : nat) : forall p s p' s',
  Re.lang (Re.at_least n (Re.One f)) p s p' s' <->
  exists m, s = m ++ s' /\ (n <= length m)%nat /\
            Forall (fun x => f x = true) m /\
            p' = from_option Some p (last m).
Proof.
  induction n as [|n IH]; intros p s p' s'; cbn [Re.at_least];
    [| cbn [Re.lang]].
  - change (Re.lang (Re.Star (Re.One f)) p s p' s')
      with (Re.star_lang (Re.lang (Re.One f)) p s p' s').
    rewrite star_one. split; intros (m & ? & ?); exists m; intuition lia.
  - split.
    + intros (q & u & (c & -> & Hf & ->) & Hrest).
      apply IH in Hrest as (m & -> & Hlen & Hm & ->).
      exists (c :: m). repeat split; [cbn; lia | constructor; assumption |].
      rewrite last_cons. destruct (last m); reflexivity.
    + intros (m & -> & Hlen & Hm & ->). destruct m as [|c m]; [cbn in Hlen; lia |].
      apply Forall_cons in Hm as [Hc Hm].
      exists (Some c), (m ++ s'). split; [exists c; auto |].
      apply IH. exists m. repeat split; [cbn in Hlen; lia | assumption |].
      rewrite last_cons. destruct (last m); reflexivity.
Qed.

Lemma lang_plus (f : N -> bool) p s p' s' :
  Re.lang (Re.plus (Re.One f)) p s p' s' <->
  exists m, s = m ++ s' /\ m <> [] /\ Forall (fun x => f x = true) m /\
            p' = from_option Some p (last m).
Proof.
  change (Re.plus (Re.One f)) with (Re.at_least 1 (Re.One f)).
  rewrite lang_at_least. split; intros (m & ? & Hm & ?); exists m;
    (split; [assumption |]); (split; [| assumption]).
  - intros ->. cbn in Hm. lia.
  - destruct m; [contradiction | cbn; lia].
Qed.

Lemma lang_chr c p s p' s' :
  Re.lang (Re.chr c) p s p' s' <-> s = c :: s' /\ p' = Some c.
Proof.
  unfold Re.chr. cbn [Re.lang]. split.
  - intros (x & -> & Hx & ->). apply N.eqb_eq in Hx as ->. auto.
  - intros [-> ->]. exists c. rewrite N.eqb_refl. auto.
Qed.

Lemma lang_needs c (r : Re.t) : forall p s p' s',
  needs c r -> Re.lang r p s p' s' -> exists m, s = m ++ s' /\ c ∈ m.
Proof.
  induction r as [|f|a IHa b IHb|a IHa|a IHa| | |]; intros p s p' s';
    cbn [needs Re.lang]; try contradiction.
  - intros Hf (x & -> & Hx & _). apply Hf in Hx as ->.
    exists [c]. split; [reflexivity | left].
  - intros [Ha | Hb] (q & u & La & Lb).
    + destruct (IHa _ _ _ _ Ha La) as (m1 & -> & Hin).
      apply lang_suffix in Lb as [m2 ->].
      exists (m1 ++ m2). split; [apply app_assoc |].
      apply elem_of_app. auto.
    + destruct (IHb _ _ _ _ Hb Lb) as (m2 & -> & Hin).
      apply lang_suffix in La as [m1 ->].
      exists (m1 ++ m2). split; [apply app_assoc |].
      apply elem_of_app. auto.
Qed.

Lemma fold_case_fixed c x :
  Units.in_range 65 90 c = false -> Units.in_range 97 122 c = false ->
  (Units.fold_case x =? Units.fold_case c)%N = true -> x = c.
Proof.
  unfold Units.fold_case, Units.in_range. intros Hup Hlow.
  rewrite Hlow.
  destruct ((97 <=? x)%N && (x <=? 122)%N) eqn:Hx; intros H;
    apply N.eqb_eq in H; [| exact H].
  apply andb_true_iff in Hx as [H1 H2].
  apply N.leb_le in H1, H2.
  apply andb_false_iff in Hup as [Hup | Hup]; apply N.leb_gt in Hup; lia.
Qed.

(** ** Global removal *)

Lemma remove_from_sublist (r : Re.t) : forall fuel p s,
  sublist (Re.remove_from fuel r p s) s.
Proof.
  induction fuel as [|fuel IH]; intros p s; cbn [Re.remove_from];
    [reflexivity |].
  assert (Hstep : sublist
            match s with
            | c :: s' => c :: Re.remove_from fuel r (Some c) s'
            | [] => []
            end s).
  { destruct s as [|c s]; [reflexivity |]. apply sublist_skip, IH. }
  destruct (Re.run _ r p s _) as [[p' s']|] eqn:E; [| exact Hstep].
  destruct (Nat.ltb_spec (length s') (length s)); [| exact Hstep].
  apply run_adequate in E as (q & u & Hl & [= -> ->]).
  apply lang_suffix in Hl as [m ->].
  etrans; [apply IH | apply sublist_inserts_l; reflexivity].
Qed.

Lemma remove_from_no_match (r : Re.t) : forall fuel p s,
  (forall q pre u, s = pre ++ u ->
     Re.run (option N * list N) r q u (fun p' s' => Some (p', s')) = None) ->
  Re.remove_from fuel r p s = s.
Proof.
  induction fuel as [|fuel IH]; intros p s Hno; cbn [Re.remove_from];
    [reflexivity |].
  rewrite (Hno p [] s eq_refl).
  destruct s as [|c s]; [reflexivity |]. f_equal. apply IH.
  intros q pre u ->. apply (Hno q (c :: pre) u). reflexivity.
Qed.

Lemma remove_all_untouched (r : Re.t) c s :
  needs c r -> c ∉ s -> Re.remove_all r s = s.
Proof.
  intros Hneeds Hc. apply remove_from_no_match. intros q pre u ->.
  apply run_none. intros p' s' Hl. exfalso. apply Hc.
  destruct (lang_needs c r _ _ _ _ Hneeds Hl) as (m & -> & Hin).
  rewrite !elem_of_app. auto.
Qed.

Lemma trimStart_sublist (s : list N) : sublist (Units.trimStart s) s.
Proof.
  induction s as [|c s IH]; [reflexivity |]. cbn [Units.trimStart].
  destruct (Units.is_space c); [apply sublist_cons, IH | reflexivity].
Qed.

Lemma trimEnd_sublist (s : list N) : sublist (Units.trimEnd s) s.
Proof.
  induction s as [|c s IH]; [reflexivity |]. cbn [Units.trimEnd].
  destruct (Units.trimEnd s) as [|d t].
  - destruct (Units.is_space c);
      [apply sublist_nil_l | apply sublist_skip, sublist_nil_l].
  - apply sublist_skip, IH.
Qed.

Lemma trim_sublist (s : list N) : sublist (Units.trim s) s.
Proof.
  unfold Units.trim. etrans; [apply trimEnd_sublist | apply trimStart_sublist].
Qed.

(** ** sanitizeInput and sanitizeEmail *)

Lemma needs_seq_of c (rs : list Re.t) :
  (exists r, r ∈ rs /\ needs c r) -> needs c (Re.seq_of rs).
Proof.
  intros (r & Hin & Hr). induction Hin as [r rs | r0 r rs _ IH];
    cbn [Re.seq_of needs]; auto.
Qed.

Lemma needs_lit_ci c (str : string) :
  c ∈ Units.of_string str ->
  Units.in_range 65 90 c = false -> Units.in_range 97 122 c = false ->
  needs c (Re.lit_ci str).
Proof.
  intros Hin Hup Hlow. apply needs_seq_of. exists (Re.chr_ci c). split.
  - apply list_elem_of_fmap. exists c. auto.
  - intros x. apply fold_case_fixed; assumption.
Qed.

Lemma scriptTagPattern_needs : needs 60 scriptTagPattern.
Proof.
  apply needs_seq_of. exists (Re.lit_ci "<script"). split; [left |].
  apply needs_lit_ci; [| reflexivity ..].
  apply (bool_decide_unpack _). vm_compute. exact I.
Qed.

Lemma javascriptUrlPattern_needs : needs 58 javascriptUrlPattern.
Proof.
  apply needs_lit_ci; [| reflexivity ..].
  apply (bool_decide_unpack _). vm_compute. exact I.
Qed.

Lemma eventHandlerPattern_needs : needs 61 eventHandlerPattern.
Proof.
  apply needs_seq_of. exists (Re.chr 61). split.
  - do 3 right. left.
  - intros x Hx. apply N.eqb_eq in Hx. exact Hx.
Qed.

Lemma dataUrlPattern_needs : needs 58 dataUrlPattern.
Proof.
  apply needs_lit_ci; [| reflexivity ..].
  apply (bool_decide_unpack _). vm_compute. exact I.
Qed.

Lemma sanitizeInput_sublist (input : list N) :
  sublist (sanitizeInput input) input.
Proof.
  unfold sanitizeInput, Re.remove_all.
  repeat (etrans; [apply remove_from_sublist |]). apply trim_sublist.
Qed.

(** X1. [sanitizeInput] only deletes: its result is a subsequence of
    the input, so it is never longer and holds no code unit the input
    did not hold. *)
Theorem sanitizeInput_only_deletes (input : list N) :
  sublist (sanitizeInput input) input /\
  (length (sanitizeInput input) <= length input)%nat /\
  (forall c, c ∈ sanitizeInput input -> c ∈ input).
Proof.
  pose proof (sanitizeInput_sublist input) as H.
  split; [exact H |]. split; [apply sublist_length, H |].
  intros c Hc. exact (elem_of_sublist _ _ _ Hc H).
Qed.

(** X2. Text without [<], [:] and [=] passes [sanitizeInput] unchanged
    but for the trimming. *)
Theorem sanitizeInput_plain_text (input : list N) :
  60%N ∉ input -> 58%N ∉ input -> 61%N ∉ input ->
  sanitizeInput input = Units.trim input.
Proof.
  intros Hlt Hcolon Heq.
  assert (Htrim : forall c, c ∉ input -> c ∉ Units.trim input).
  { intros c Hc Hin. apply Hc.
    exact (elem_of_sublist _ _ _ Hin (trim_sublist input)). }
  unfold sanitizeInput.
  rewrite (remove_all_untouched scriptTagPattern 60)
    by auto using scriptTagPattern_needs.
  rewrite (remove_all_untouched javascriptUrlPattern 58)
    by auto using javascriptUrlPattern_needs.
  rewrite (remove_all_untouched eventHandlerPattern 61)
    by auto using eventHandlerPattern_needs.
  apply (remove_all_untouched dataUrlPattern 58);
    auto using dataUrlPattern_needs.
Qed.

Lemma sanitizeInput_plain_text_witness :
  sanitizeInput (Units.of_string "  hello world  ") =
  Units.of_string "hello world".
Proof.
  rewrite (sanitizeInput_plain_text (Units.of_string "  hello world  "));
    [vm_compute; reflexivity | ..];
    apply (bool_decide_unpack _); vm_compute; exact I.
Defined.

Lemma emailRegex_spec (e : list N) :
  Re.test emailRegex e = true <-> email_shaped e.
Proof.
  rewrite test_true. unfold emailRegex, email_shaped.
  cbn [Re.seq_of]. split.
  - intros (pre & post & p' & s' & -> & Hl).
    cbn [Re.lang] in Hl.
    destruct Hl as (q0 & u0 & (-> & -> & Hpre) & q1 & u1 & Hloc &
                    q2 & u2 & Hat & q3 & u3 & Hdom &
                    q4 & u4 & Hdot & q5 & u5 & Htld &
                    q6 & u6 & (-> & -> & ->) & (-> & ->)).
    apply last_None in Hpre as ->.
    apply (lang_plus emailPart) in Hloc as (loc & -> & Hloc & Floc & _).
    apply lang_chr in Hat as [-> _].
    apply (lang_plus emailPart) in Hdom as (dom & -> & Hdom & Fdom & _).
    apply lang_chr in Hdot as [-> _].
    apply (lang_plus emailPart) in Htld as (tld & -> & Htld & Ftld & _).
    exists loc, dom, tld. rewrite app_nil_r.
    repeat split; try assumption. rewrite !Forall_app. auto.
  - intros (loc & dom & tld & -> & Hloc & Hdom & Htld & Hall).
    rewrite !Forall_app in Hall. destruct Hall as (Floc & Fdom & Ftld).
    exists [], (loc ++ [64%N] ++ dom ++ [46%N] ++ tld).
    eexists. exists []. split; [reflexivity |].
    cbn [Re.lang last].
    eexists _, _. split; [repeat split |].
    eexists _, _. split.
    { apply (lang_plus emailPart). exists loc. eauto. }
    eexists _, _. split; [apply lang_chr; split; reflexivity |].
    eexists _, _. split.
    { apply (lang_plus emailPart). exists dom. eauto. }
    eexists _, _. split; [apply lang_chr; split; reflexivity |].
    eexists _, _. split.
    { apply (lang_plus emailPart). exists tld.
      rewrite app_nil_r. eauto. }
    eexists _, _. split; repeat split.
Qed.

Lemma sanitizeEmail_some toLowerCase (email e : list N) :
  sanitizeEmail toLowerCase email = Some e ->
  e = sanitizeInput (toLowerCase email) /\
  email_shaped e /\
  sublist e (toLowerCase email).
Proof.
  unfold sanitizeEmail.
  destruct (Re.test emailRegex _) eqn:Ht; cbn [negb]; [| discriminate].
  intros [= <-]. split; [reflexivity |].
  split; [apply emailRegex_spec, Ht | apply sanitizeInput_sublist].
Qed.

(** X3. What [sanitizeEmail] returns is the sanitized lower-cased input
    and has the shape [local@domain.tld]: three non-empty parts free of
    white space and of [@], hence exactly one [@]. *)
Theorem sanitizeEmail_shape toLowerCase (email e : list N) :
  sanitizeEmail toLowerCase email = Some e ->
  e = sanitizeInput (toLowerCase email) /\
  email_shaped e /\
  sublist e (toLowerCase email).
Proof. apply sanitizeEmail_some. Qed.

Lemma sanitizeEmail_shape_witness :
  sanitizeEmail (fun s => s) (Units.of_string " user@example.com ") =
    Some (Units.of_string "user@example.com") /\
  email_shaped (Units.of_string "user@example.com").
Proof.
  assert (H : sanitizeEmail (fun s => s) (Units.of_string " user@example.com ")
              = Some (Units.of_string "user@example.com"))
    by (vm_compute; reflexivity).
  split; [exact H |].
  apply (sanitizeEmail_shape (fun s => s) _ _ H).
Defined.

(** X4. An address whose lower-cased form holds no [@], or no [.], is
    refused. *)
Theorem sanitizeEmail_refuses toLowerCase (email : list N) :
  64%N ∉ toLowerCase email \/ 46%N ∉ toLowerCase email ->
  sanitizeEmail toLowerCase email = None.
Proof.
  intros Hno.
  destruct (sanitizeEmail toLowerCase email) as [e|] eqn:E; [| reflexivity].
  exfalso.
  apply sanitizeEmail_some in E as (_ & (loc & dom & tld & -> & _) & Hsub).
  destruct Hno as [Hno | Hno]; apply Hno;
    refine (elem_of_sublist _ _ _ _ Hsub); rewrite !elem_of_app;
    rewrite !elem_of_cons; auto 10.
Qed.

Lemma sanitizeEmail_refuses_witness :
  sanitizeEmail (fun s => s) (Units.of_string "user.example.com") = None.
Proof.
  apply sanitizeEmail_refuses. left.
  apply (bool_decide_unpack _). vm_compute. exact I.
Defined.

(** ** validateAPIKey, validatePassword, validateFileUpload *)

Lemma apiKey_accepts (key : list N) :
  validateAPIKey key = true <->
  (32 <= length key)%nat /\ Forall (fun x => apiKeyChar x = true) key.
Proof.
  unfold validateAPIKey, apiKeyPattern. rewrite test_true.
  cbn [Re.seq_of]. split.
  - intros (pre & post & p' & s' & -> & Hl).
    destruct Hl as (q0 & u0 & (-> & -> & Hpre) & q1 & u1 & Hkey &
                    q2 & u2 & (-> & -> & ->) & (-> & ->)).
    apply last_None in Hpre as ->.
    apply (lang_at_least apiKeyChar) in Hkey as (m & -> & Hlen & Hm & _).
    rewrite app_nil_r. auto.
  - intros [Hlen Hall]. exists [], key. eexists. exists [].
    split; [reflexivity |]. cbn [last].
    eexists _, _. split; [repeat split |].
    eexists _, _. split.
    { apply (lang_at_least apiKeyChar). exists key.
      rewrite app_nil_r. eauto. }
    eexists _, _. split; repeat split.
Qed.

(** X5. [validateAPIKey] accepts exactly the keys of 32 or more code
    units that are all ASCII letters, digits, [_] or [-]. *)
Theorem validateAPIKey_spec (key : list N) :
  validateAPIKey key = true <->
  (32 <= length key)%nat /\ Forall (fun x => apiKeyChar x = true) key.
Proof. apply apiKey_accepts. Qed.

Ltac password_cases password :=
  unfold validatePassword;
  destruct (length password <? 8)%nat eqn:Hlen;
  destruct (Re.test (Re.One (Units.in_range 97 122)) password) eqn:Hlower;
  destruct (Re.test (Re.One (Units.in_range 65 90)) password) eqn:Hupper;
  destruct (Re.test (Re.One (Units.in_range 48 57)) password) eqn:Hdigit;
  destruct (Re.test (Re.One (one_of passwordSpecials)) password) eqn:Hspecial;
  cbn [negb app length PasswordValidation.isValid PasswordValidation.errors
       PasswordValidation.score].

(** X6. [validatePassword] reports a password valid exactly when it has
    at least 8 code units and holds a lower-case letter, an upper-case
    letter, a digit and one of the listed special characters; that is
    also exactly when it reports no error. *)
Theorem validatePassword_verdict (password : list N) :
  (PasswordValidation.isValid (validatePassword password) = true <->
   (8 <= length password)%nat /\
   has_char (Units.in_range 97 122) password /\
   has_char (Units.in_range 65 90) password /\
   has_char (Units.in_range 48 57) password /\
   has_char (one_of passwordSpecials) password) /\
  (PasswordValidation.isValid (validatePassword password) = true <->
   PasswordValidation.errors (validatePassword password) = []).
Proof.
  rewrite <- !test_one.
  password_cases password;
    rewrite !bool_decide_eq_true;
    apply Nat.ltb_lt in Hlen || apply Nat.ltb_ge in Hlen;
    intuition (try lia; try done).
Qed.

(** X7. The score of [validatePassword] is five minus the number of
    errors, plus one for 12 or more code units, capped at five.  So it
    lies between 0 and 5 and is 5 for every valid password; but a
    password of 12 or more code units that fails exactly one check also
    scores 5 while being invalid. *)
Theorem validatePassword_score (password : list N) :
  PasswordValidation.score (validatePassword password) =
    Z.min 5
      (5 - Z.of_nat (length (PasswordValidation.errors
                               (validatePassword password))) +
       (if (12 <=? length password)%nat then 1 else 0)) /\
  0 <= PasswordValidation.score (validatePassword password) <= 5 /\
  (PasswordValidation.isValid (validatePassword password) = true ->
   PasswordValidation.score (validatePassword password) = 5) /\
  ((12 <= length password)%nat ->
   length (PasswordValidation.errors (validatePassword password)) = 1%nat ->
   PasswordValidation.score (validatePassword password) = 5 /\
   PasswordValidation.isValid (validatePassword password) = false).
Proof.
  password_cases password;
    destruct (12 <=? length password)%nat eqn:Hlong;
    apply Nat.ltb_lt in Hlen || apply Nat.ltb_ge in Hlen;
    apply Nat.leb_le in Hlong || apply Nat.leb_gt in Hlong;
    try lia;
    rewrite ?bool_decide_eq_true, ?bool_decide_eq_false;
    cbn [length Z.of_nat]; intuition (try lia; try done).
Qed.

Lemma validatePassword_score_witness :
  PasswordValidation.score
    (validatePassword (Units.of_string "abcdefghijk1!")) = 5 /\
  PasswordValidation.isValid
    (validatePassword (Units.of_string "abcdefghijk1!")) = false.
Proof.
  apply (proj2 (proj2 (proj2
           (validatePassword_score (Units.of_string "abcdefghijk1!"))))).
  - cbn. lia.
  - vm_compute. reflexivity.
Defined.

Lemma file_name_test (name : list N) :
  Re.test (Re.One (one_of fileNameForbidden)) name = true <->
  has_char (one_of fileNameForbidden) name.
Proof. apply test_one. Qed.

(** X8. [validateFileUpload] accepts a file exactly when its type is
    one of the allowed types, its size does not exceed the limit (a
    file of exactly the limit is accepted) and its name holds none of
    the forbidden characters; it reports at most three errors. *)
Theorem validateFileUpload_verdict showQuotient file allowedTypes maxSize :
  (FileValidation.isValid
     (validateFileUpload showQuotient file allowedTypes maxSize) = true <->
   File.type file ∈ allowedTypes /\
   File.size file <= maxSize /\
   ~ has_char (one_of fileNameForbidden) (File.name file)) /\
  (length (FileValidation.errors
             (validateFileUpload showQuotient file allowedTypes maxSize))
   <= 3)%nat.
Proof.
  rewrite <- file_name_test. unfold validateFileUpload.
  destruct (bool_decide (File.type file ∈ allowedTypes)) eqn:Htype;
    [apply bool_decide_eq_true in Htype | apply bool_decide_eq_false in Htype];
    destruct (Z.gtb_spec (File.size file) maxSize) as [Hsize|Hsize];
    destruct (Re.test _ (File.name file)) eqn:Hname;
    cbn [negb app length FileValidation.isValid FileValidation.errors];
    rewrite bool_decide_eq_true; (split; [| lia]);
    intuition (try lia; try done).
Qed.

(** ** CSRF tokens *)

Lemma byte_cases (P : N -> Prop) :
  Forall P (map N.of_nat (seq 0 256)) -> forall b, (b < 256)%N -> P b.
Proof.
  intros Hall b Hb. rewrite Forall_forall in Hall. apply Hall.
  apply list_elem_of_fmap. exists (N.to_nat b). split; [lia |].
  apply elem_of_seq. lia.
Qed.

Lemma byte_hex b :
  (b < 256)%N ->
  Units.padStart 2 48 (Units.toString16 b) =
    [Units.hexDigit (b / 16); Units.hexDigit (b mod 16)].
Proof.
  revert b. apply byte_cases.
  apply (bool_decide_unpack _). vm_compute. exact I.
Qed.

Lemma generateCSRFToken_cons b random :
  (b < 256)%N ->
  generateCSRFToken (b :: random) =
    Units.hexDigit (b / 16) :: Units.hexDigit (b mod 16) ::
    generateCSRFToken random.
Proof.
  intros Hb. unfold generateCSRFToken. cbn [map concat].
  rewrite byte_hex by exact Hb. reflexivity.
Qed.

Lemma hexDigit_inj d e :
  (d < 16)%N -> (e < 16)%N -> Units.hexDigit d = Units.hexDigit e -> d = e.
Proof.
  unfold Units.hexDigit. intros Hd He.
  destruct (N.ltb_spec d 10), (N.ltb_spec e 10); lia.
Qed.

Lemma hexDigit_key d : (d < 16)%N -> apiKeyChar (Units.hexDigit d) = true.
Proof.
  revert d.
  assert (H : Forall (fun d => apiKeyChar (Units.hexDigit d) = true)
                (map N.of_nat (seq 0 16)))
    by (apply (bool_decide_unpack _); vm_compute; exact I).
  intros d Hd. rewrite Forall_forall in H. apply H.
  apply list_elem_of_fmap. exists (N.to_nat d). split; [lia |].
  apply elem_of_seq. lia.
Qed.

Lemma hexDigit_lower_hex d :
  (d < 16)%N ->
  Units.in_range 48 57 (Units.hexDigit d) ||
  Units.in_range 97 102 (Units.hexDigit d) = true.
Proof.
  unfold Units.hexDigit, Units.in_range. intros Hd.
  destruct (N.ltb_spec d 10); apply orb_true_iff; [left | right];
    apply andb_true_iff; split; apply N.leb_le; lia.
Qed.

Lemma generateCSRFToken_shape (random : list N) :
  Forall (fun b => (b < 256)%N) random ->
  length (generateCSRFToken random) = (2 * length random)%nat /\
  Forall (fun x => Units.in_range 48 57 x || Units.in_range 97 102 x = true)
    (generateCSRFToken random) /\
  Forall (fun x => apiKeyChar x = true) (generateCSRFToken random).
Proof.
  induction 1 as [|b random Hb _ (IH1 & IH2 & IH3)].
  - repeat split; constructor.
  - rewrite generateCSRFToken_cons by exact Hb.
    assert (b / 16 < 16)%N by (apply N.Div0.div_lt_upper_bound; lia).
    assert (b mod 16 < 16)%N by (apply N.mod_lt; lia).
    repeat split.
    + cbn [length]. lia.
    + repeat constructor; auto using hexDigit_lower_hex.
    + repeat constructor; auto using hexDigit_key.
Qed.

(** X9. The token [generateCSRFToken] builds from 32 random bytes has
    64 code units, all of them digits or letters [a] to [f]; it
    validates against itself and has the format [validateAPIKey]
    asks for. *)
Theorem generateCSRFToken_format (random : list N) :
  length random = 32%nat ->
  Forall (fun b => (b < 256)%N) random ->
  length (generateCSRFToken random) = 64%nat /\
  Forall (fun x => Units.in_range 48 57 x || Units.in_range 97 102 x = true)
    (generateCSRFToken random) /\
  validateCSRFToken (generateCSRFToken random) (generateCSRFToken random)
    = true /\
  validateAPIKey (generateCSRFToken random) = true.
Proof.
  intros Hlen Hbytes.
  pose proof (generateCSRFToken_shape random Hbytes) as Hshape.
  destruct Hshape as (Hl & Hhex & Hkey). rewrite Hlen in Hl.
  split; [exact Hl |]. split; [exact Hhex |]. split.
  - unfold validateCSRFToken.
    rewrite !bool_decide_true by (reflexivity || exact Hl). reflexivity.
  - apply apiKey_accepts. split; [lia | exact Hkey].
Qed.

Lemma generateCSRFToken_inj (r1 : list N) : forall r2,
  Forall (fun b => (b < 256)%N) r1 -> Forall (fun b => (b < 256)%N) r2 ->
  generateCSRFToken r1 = generateCSRFToken r2 -> r1 = r2.
Proof.
  induction r1 as [|b r1 IH]; intros [|c r2] H1 H2.
  - reflexivity.
  - apply Forall_cons in H2 as [Hc _].
    rewrite generateCSRFToken_cons by exact Hc. discriminate.
  - apply Forall_cons in H1 as [Hb _].
    rewrite generateCSRFToken_cons by exact Hb. discriminate.
  - apply Forall_cons in H1 as [Hb H1]. apply Forall_cons in H2 as [Hc H2].
    rewrite !generateCSRFToken_cons by assumption. intros [= Hhi Hlo Hrest].
    apply hexDigit_inj in Hhi;
      [| apply N.Div0.div_lt_upper_bound; lia ..].
    apply hexDigit_inj in Hlo; [| apply N.mod_lt; lia ..].
    f_equal; [| apply IH; assumption].
    rewrite (N.div_mod b 16), (N.div_mod c 16) by lia. congruence.
Qed.

(** X10. Of two tokens generated from 32 random bytes each, one
    validates against the other exactly when the random bytes were the
    same: the hexadecimal rendering loses nothing. *)
Theorem validateCSRFToken_generated (r1 r2 : list N) :
  length r1 = 32%nat -> length r2 = 32%nat ->
  Forall (fun b => (b < 256)%N) r1 -> Forall (fun b => (b < 256)%N) r2 ->
  (validateCSRFToken (generateCSRFToken r1) (generateCSRFToken r2) = true
   <-> r1 = r2).
Proof.
  intros Hl1 Hl2 H1 H2. unfold validateCSRFToken.
  rewrite andb_true_iff, !bool_decide_eq_true. split.
  - intros [Heq _]. apply generateCSRFToken_inj; assumption.
  - intros ->. split; [reflexivity |].
    rewrite (proj1 (generateCSRFToken_shape r2 H2)), Hl2. reflexivity.
Qed.

Lemma generateCSRFToken_format_witness :
  length (generateCSRFToken (replicate 32 171%N)) = 64%nat /\
  validateAPIKey (generateCSRFToken (replicate 32 171%N)) = true.
Proof.
  destruct (generateCSRFToken_format (replicate 32 171%N))
    as (Hlen & _ & _ & Hkey).
  - reflexivity.
  - apply (bool_decide_unpack _). vm_compute. exact I.
  - split; assumption.
Defined.

Lemma validateCSRFToken_generated_witness :
  validateCSRFToken (generateCSRFToken (replicate 32 7%N))
    (generateCSRFToken (replicate 32 7%N)) = true.
Proof.
  apply (validateCSRFToken_generated (replicate 32 7%N) (replicate 32 7%N));
    try reflexivity; apply (bool_decide_unpack _); vm_compute; exact I.
Defined.

(** ** performSecurityChecks *)

(** X11. Outside production [performSecurityChecks] passes whatever the
    secrets are.  In production it passes exactly when both secrets are
    set with at least 32 code units and the application URL starts with
    [https://]; that URL is then on the CORS allow-list. *)
Theorem performSecurityChecks_spec (env : Env) (secrets : Secrets) :
  (NODE_ENV env <> "production" ->
   SecurityChecks.passed (performSecurityChecks env secrets) = true /\
   SecurityChecks.issues (performSecurityChecks env secrets) = []) /\
  (NODE_ENV env = "production" ->
   (SecurityChecks.passed (performSecurityChecks env secrets) = true <->
    (exists j, JWT_SECRET secrets = Some j /\ (32 <= length j)%nat) /\
    (exists n, NEXTAUTH_SECRET secrets = Some n /\ (32 <= length n)%nat) /\
    (exists url, NEXT_PUBLIC_APP_URL env = Some url /\
                 has_prefix "https://" url /\
                 url ∈ allowedOrigins env))).
Proof.
  unfold performSecurityChecks. split.
  - intros Hdev.
    rewrite (bool_decide_false (NODE_ENV env = "production")) by exact Hdev.
    split; reflexivity.
  - intros Hprod.
    rewrite (bool_decide_true (NODE_ENV env = "production")) by exact Hprod.
    assert (Hshort : forall s, too_short s = false <->
              exists v, s = Some v /\ (32 <= length v)%nat).
    { intros [[|c v]|]; cbn [too_short].
      - split; [discriminate | intros (v & [= <-] & Hv); cbn in Hv; lia].
      - rewrite Nat.ltb_ge. split; [eauto |].
        intros (v' & [= <-] & Hv). exact Hv.
      - split; [discriminate | intros (v & Hv & _); discriminate]. }
    assert (Hurl : negb (Js.truthy (NEXT_PUBLIC_APP_URL env)) ||
                   negb (Js.startsWith
                           (default EmptyString (NEXT_PUBLIC_APP_URL env))
                           "https://") = false <->
              exists url, NEXT_PUBLIC_APP_URL env = Some url /\
                          has_prefix "https://" url /\
                          url ∈ allowedOrigins env).
    { rewrite orb_false_iff, !negb_false_iff, startsWith_spec. split.
      - intros [Ht Hp]. destruct (NEXT_PUBLIC_APP_URL env) as [[|c url]|] eqn:E;
          try discriminate.
        exists (String c url). repeat split; [exact Hp |].
        apply allowedOrigins_spec; [discriminate |]. left.
        split; [discriminate | exact E].
      - intros (url & E & Hp & _). rewrite E. split; [| exact Hp].
        destruct url; [destruct Hp as [rest Hp]; discriminate | reflexivity]. }
    rewrite <- !Hshort, <- Hurl.
    destruct (too_short (JWT_SECRET secrets)),
      (too_short (NEXTAUTH_SECRET secrets)),
      (negb (Js.truthy (NEXT_PUBLIC_APP_URL env)) || _);
      cbn [app length SecurityChecks.passed];
      rewrite bool_decide_eq_true; intuition (try lia; try done).
Qed.

Lemma performSecurityChecks_spec_witness :
  SecurityChecks.passed
    (performSecurityChecks
       {| NEXT_PUBLIC_APP_URL := None; NODE_ENV := "development" |}
       {| JWT_SECRET := None; NEXTAUTH_SECRET := None |}) = true.
Proof.
  apply (proj1 (performSecurityChecks_spec
                  {| NEXT_PUBLIC_APP_URL := None; NODE_ENV := "development" |}
                  {| JWT_SECRET := None; NEXTAUTH_SECRET := None |})).
  discriminate.
Defined.

(** ** More on the rate limiter *)

Lemma rateLimitKey_inj r1 r2 :
  rateLimitKey r1 = rateLimitKey r2 -> getClientIP r1 = getClientIP r2.
Proof. unfold rateLimitKey. apply String.app_inj. Qed.

Lemma rateLimit_other_key config request t store k :
  k <> rateLimitKey request ->
  (rateLimit config request t store).2 !! k = store !! k.
Proof.
  intros Hne.
  destruct (rateLimit_cases config request t store)
    as [[_ E] | [(r0 & _ & _ & E)
       | [(r0 & _ & _ & _ & E) | (r0 & resp & _ & _ & _ & E & _)]]];
    rewrite E; cbn [snd]; try reflexivity;
    apply lookup_insert_ne; congruence.
Qed.

Lemma rateLimit_local config request t s1 s2 :
  s1 !! rateLimitKey request = s2 !! rateLimitKey request ->
  (rateLimit config request t s1).1 = (rateLimit config request t s2).1 /\
  (rateLimit config request t s1).2 !! rateLimitKey request =
  (rateLimit config request t s2).2 !! rateLimitKey request.
Proof.
  intros Hk. unfold rateLimit. fold (rateLimitKey request). rewrite Hk.
  destruct (s2 !! rateLimitKey request) as [r|] eqn:E2.
  - destruct (t >? resetTime r).
    + cbn [fst snd]. rewrite !lookup_insert_eq. auto.
    + destruct (count r >=? maxRequests config); cbn [fst snd].
      * split; [reflexivity | congruence].
      * rewrite !lookup_insert_eq. auto.
  - cbn [fst snd]. rewrite !lookup_insert_eq. auto.
Qed.

Lemma rateLimit_dom config request t store :
  dom (rateLimit config request t store).2 =
    {[rateLimitKey request]} ∪ dom store.
Proof.
  destruct (rateLimit_cases config request t store)
    as [[_ E] | [(r0 & _ & _ & E)
       | [(r0 & _ & _ & _ & E) | (r0 & resp & Hk & _ & _ & E & _)]]];
    rewrite E; cbn [snd]; try apply dom_insert_L.
  apply (elem_of_dom_2 (D := gset string)) in Hk. set_solver.
Qed.

Lemma serve_app config reqs1 reqs2 store :
  serve config (reqs1 ++ reqs2) store =
    ((serve config reqs1 store).1 ++
       (serve config reqs2 (serve config reqs1 store).2).1,
     (serve config reqs2 (serve config reqs1 store).2).2).
Proof.
  revert store. induction reqs1 as [|[r t] reqs1 IH]; intros store.
  - cbn [app serve fst snd]. destruct (serve config reqs2 store). reflexivity.
  - rewrite <- app_comm_cons, !serve_cons, IH. reflexivity.
Qed.

Lemma serve_length config reqs : forall store,
  length (serve config reqs store).1 = length reqs.
Proof.
  induction reqs as [|[r t] reqs IH]; intros store; [reflexivity |].
  rewrite serve_cons. cbn [fst length]. rewrite IH. reflexivity.
Qed.

Lemma serve_window_allowed config reqs : forall store key c R,
  (forall r t, (r, t) ∈ reqs -> rateLimitKey r = key /\ t <= R) ->
  store !! key = Some {| count := c; resetTime := R |} ->
  c + Z.of_nat (length reqs) <= maxRequests config ->
  (serve config reqs store).1 = replicate (length reqs) None.
Proof.
  induction reqs as [|[r t] reqs IH]; intros store key c R Hall Hk Hc;
    [reflexivity |].
  destruct (Hall r t) as [Hr Ht]; [left |]. subst key.
  rewrite serve_cons. cbn [fst length replicate] in *.
  rewrite (rateLimit_increment config r t store _ Hk) by (cbn; lia).
  cbn [fst snd count resetTime]. f_equal.
  apply (IH _ (rateLimitKey r) (c + 1) R).
  - intros; apply Hall; right; assumption.
  - apply lookup_insert_eq.
  - lia.
Qed.

Lemma serve_window_store config reqs : forall store key c R,
  (forall r t, (r, t) ∈ reqs -> rateLimitKey r = key /\ t <= R) ->
  store !! key = Some {| count := c; resetTime := R |} ->
  (serve config reqs store).2 =
    <[key := {| count := if c <? maxRequests config
                         then Z.min (c + Z.of_nat (length reqs))
                                (maxRequests config)
                         else c;
                resetTime := R |}]> store.
Proof.
  induction reqs as [|[r t] reqs IH]; intros store key c R Hall Hk.
  - cbn [serve snd length Z.of_nat]. symmetry. apply insert_id.
    rewrite Hk. do 2 f_equal.
    destruct (Z.ltb_spec c (maxRequests config)); lia.
  - destruct (Hall r t) as [Hr Ht]; [left |]. subst key.
    assert (Hrest : forall r' t', (r', t') ∈ reqs ->
              rateLimitKey r' = rateLimitKey r /\ t' <= R)
      by (intros; apply Hall; right; assumption).
    rewrite serve_cons. cbn [snd length].
    destruct (Z.ltb_spec c (maxRequests config)) as [Hc|Hc].
    + rewrite (rateLimit_increment config r t store _ Hk) by (cbn; lia).
      cbn [snd count resetTime].
      rewrite (IH _ (rateLimitKey r) (c + 1) R Hrest)
        by apply lookup_insert_eq.
      rewrite insert_insert_eq. do 2 f_equal.
      destruct (Z.ltb_spec (c + 1) (maxRequests config)); lia.
    + destruct (rateLimit_reject config r t store _ Hk) as (resp & E & _);
        [cbn; lia .. |].
      rewrite E. cbn [snd].
      rewrite (IH _ (rateLimitKey r) c R Hrest Hk).
      destruct (Z.ltb_spec c (maxRequests config)); [lia | reflexivity].
Qed.

(** X12. The window is fixed: requests of a client that arrive no
    later than [resetTime] never move [resetTime], and they raise the
    count by one each until it reaches the budget, where it stays;
    records of other clients are not touched. *)
Theorem serve_window_state config reqs : forall store key c R,
  (forall r t, (r, t) ∈ reqs -> rateLimitKey r = key /\ t <= R) ->
  store !! key = Some {| count := c; resetTime := R |} ->
  (serve config reqs store).2 =
    <[key := {| count := if c <? maxRequests config
                         then Z.min (c + Z.of_nat (length reqs))
                                (maxRequests config)
                         else c;
                resetTime := R |}]> store.
Proof. apply serve_window_store. Qed.

Lemma serve_window_state_witness :
  (serve scenarioA_policy
     [(scenarioA_request, 1005); (scenarioA_request, 1010);
      (scenarioA_request, 61000)] store_after_first).2
    !! rateLimitKey scenarioA_request =
  Some {| count := 2; resetTime := 61000 |}.
Proof.
  rewrite (serve_window_state scenarioA_policy
             [(scenarioA_request, 1005); (scenarioA_request, 1010);
              (scenarioA_request, 61000)]
             store_after_first (rateLimitKey scenarioA_request) 1 61000).
  - rewrite lookup_insert_eq. reflexivity.
  - intros r t Hin.
    repeat (apply elem_of_cons in Hin as [[= -> ->] | Hin];
            [split; [reflexivity | lia] |]).
    apply elem_of_nil in Hin. contradiction.
  - vm_compute. reflexivity.
Defined.

(** X13. A fixed window lets a burst through at its boundary: with
    budget [N] and a client unknown to the store, the request at [t0]
    that opens the window, [N - 1] more at [t0 + windowMs], the last
    millisecond of that window, and [N] more one millisecond later are
    all let through.  So [2N] requests of one client pass within
    [windowMs + 1] milliseconds, [2N - 1] of them in two consecutive
    milliseconds. *)
Theorem boundary_burst config request t0 store :
  0 < maxRequests config ->
  0 <= windowMs config ->
  store !! rateLimitKey request = None ->
  (serve config
     ((request, t0) ::
      replicate (Z.to_nat (maxRequests config) - 1)
        (request, t0 + windowMs config) ++
      replicate (Z.to_nat (maxRequests config))
        (request, t0 + windowMs config + 1)) store).1 =
  replicate (2 * Z.to_nat (maxRequests config)) None.
Proof.
  intros HN Hw Hfresh.
  set (N := maxRequests config) in *. set (w := windowMs config) in *.
  destruct (Z.to_nat N) as [|n] eqn:En; [lia |].
  replace (S n - 1)%nat with n by lia.
  rewrite serve_cons. cbn [fst].
  rewrite (rateLimit_fresh config request t0 store Hfresh). cbn [fst snd].
  fold w. set (store1 := <[rateLimitKey request := _]> store).
  assert (H1 : store1 !! rateLimitKey request =
               Some {| count := 1; resetTime := t0 + w |})
    by apply lookup_insert_eq.
  assert (Hin1 : forall r t, (r, t) ∈ replicate n (request, t0 + w) ->
            rateLimitKey r = rateLimitKey request /\ t <= t0 + w).
  { intros r t Hin. apply elem_of_replicate in Hin as [[= -> ->] _].
    split; [reflexivity | lia]. }
  rewrite serve_app. cbn [fst].
  rewrite (serve_window_allowed config _ store1 _ 1 (t0 + w) Hin1 H1)
    by (rewrite length_replicate; fold N; lia).
  rewrite (serve_window_store config _ store1 _ 1 (t0 + w) Hin1 H1).
  rewrite length_replicate. fold N.
  set (store2 := <[rateLimitKey request := _]> store1).
  assert (H2 : store2 !! rateLimitKey request =
               Some {| count := N; resetTime := t0 + w |}).
  { unfold store2. rewrite lookup_insert_eq. do 2 f_equal.
    destruct (Z.ltb_spec 1 N); lia. }
  cbn [replicate]. rewrite serve_cons. cbn [fst].
  rewrite (rateLimit_expired config request (t0 + w + 1) store2 _ H2)
    by (cbn; lia).
  cbn [fst snd]. fold w.
  rewrite (serve_window_allowed config _ _ (rateLimitKey request) 1
             (t0 + w + 1 + w)).
  - rewrite !length_replicate.
    replace (2 * S n)%nat with (S (n + S n)) by lia.
    cbn [replicate]. f_equal. rewrite replicate_add. reflexivity.
  - intros r t Hin. apply elem_of_replicate in Hin as [[= -> ->] _].
    split; [reflexivity | lia].
  - apply lookup_insert_eq.
  - rewrite length_replicate. fold N. lia.
Qed.

Lemma boundary_burst_witness :
  (serve scenarioA_policy
     [(scenarioA_request, 1000); (scenarioA_request, 61000);
      (scenarioA_request, 61001); (scenarioA_request, 61001)] ∅).1 =
  [None; None; None; None].
Proof.
  apply (boundary_burst scenarioA_policy scenarioA_request 1000 ∅);
    [cbn; lia | cbn; lia | apply lookup_empty].
Defined.

(** X14. Requests whose derived identities are all different, none of
    them known to the store, are all let through, whatever the policy
    and the timing: the limiter bounds each identity, not the traffic. *)
Theorem distinct_identities_pass config reqs : forall store,
  NoDup (map (fun rt => getClientIP rt.1) reqs) ->
  (forall r t, (r, t) ∈ reqs -> store !! rateLimitKey r = None) ->
  (serve config reqs store).1 = replicate (length reqs) None.
Proof.
  induction reqs as [|[r t] reqs IH]; intros store Hnd Hfresh;
    [reflexivity |].
  cbn [map fst] in Hnd. apply NoDup_cons in Hnd as [Hnotin Hnd].
  rewrite serve_cons. cbn [fst length replicate].
  rewrite (rateLimit_fresh config r t store) by (apply (Hfresh r t); left).
  cbn [fst snd]. f_equal. apply IH; [exact Hnd |].
  intros r' t' Hin.
  rewrite lookup_insert_ne; [apply (Hfresh r' t'); right; exact Hin |].
  intros Hkey. apply rateLimitKey_inj in Hkey. apply Hnotin.
  apply list_elem_of_fmap. exists (r', t'). auto.
Qed.

Lemma distinct_identities_pass_witness :
  (serve oneShot_policy
     [(scenarioA_request, 1000); (home_request, 1000);
      (traversal_request, 1000)] ∅).1 = [None; None; None].
Proof.
  apply (distinct_identities_pass oneShot_policy
           [(scenarioA_request, 1000); (home_request, 1000);
            (traversal_request, 1000)] ∅).
  - apply (bool_decide_unpack _). vm_compute. exact I.
  - intros r t _. apply lookup_empty.
Defined.

(** X15. Clients do not disturb one another: the decisions a client
    gets in a run of requests are the decisions it would get if the
    requests of all other clients were left out. *)
Theorem client_isolation config ip reqs : forall store1 store2,
  store1 !! ("rate_limit:" +:+ ip) = store2 !! ("rate_limit:" +:+ ip) ->
  (filter (fun ro => getClientIP ro.1.1 = ip)
     (zip reqs (serve config reqs store1).1)).*2 =
  (serve config (filter (fun rt => getClientIP rt.1 = ip) reqs) store2).1.
Proof.
  induction reqs as [|[r t] reqs IH]; intros store1 store2 Hk; [reflexivity |].
  rewrite serve_cons. cbn [fst zip zip_with].
  rewrite !filter_cons. cbn [fst].
  destruct (decide (getClientIP r = ip)) as [Hip|Hip].
  - assert (Hkey : rateLimitKey r = "rate_limit:" +:+ ip)
      by (unfold rateLimitKey; rewrite Hip; reflexivity).
    rewrite <- Hkey in Hk.
    destruct (rateLimit_local config r t store1 store2 Hk) as [Hout Hnext].
    rewrite serve_cons. cbn [fst fmap list_fmap snd].
    rewrite Hout. f_equal. apply IH. rewrite <- Hkey. exact Hnext.
  - apply IH. rewrite rateLimit_other_key; [exact Hk |].
    unfold rateLimitKey. intros Heq. apply String.app_inj in Heq. congruence.
Qed.

Lemma client_isolation_witness :
  (filter (fun ro => getClientIP ro.1.1 = "198.51.100.4")
     (zip [(home_request, 1000); (scenarioA_request, 1001);
           (home_request, 1002); (scenarioA_request, 1003)]
        (serve oneShot_policy
           [(home_request, 1000); (scenarioA_request, 1001);
            (home_request, 1002); (scenarioA_request, 1003)] ∅).1)).*2 =
  (serve oneShot_policy [(home_request, 1000); (home_request, 1002)] ∅).1.
Proof.
  rewrite (client_isolation oneShot_policy "198.51.100.4"
             [(home_request, 1000); (scenarioA_request, 1001);
              (home_request, 1002); (scenarioA_request, 1003)] ∅ ∅ eq_refl).
  vm_compute. reflexivity.
Defined.

(** X16. No record is ever removed: after a run of requests the store
    holds a record for every identity it held before and for every
    identity that sent a request, expired or not. *)
Theorem store_never_shrinks config reqs : forall store,
  dom (serve config reqs store).2 =
    dom store ∪ list_to_set (map (fun rt => rateLimitKey rt.1) reqs).
Proof.
  induction reqs as [|[r t] reqs IH]; intros store.
  - cbn [serve snd map list_to_set]. set_solver.
  - rewrite serve_cons. cbn [snd map fst list_to_set].
    rewrite IH, rateLimit_dom. set_solver.
Qed.

(** ** Invariants of the gate's counters *)

Lemma run_cons env w request rest st :
  run env ((w, request) :: rest) st =
    ((middleware env w request st).1 ::
       (run env rest (middleware env w request st).2).1,
     (run env rest (middleware env w request st).2).2).
Proof.
  cbn [run]. destruct (middleware env w request st) as [out st1].
  cbn [fst snd]. destruct (run env rest st1) as [outs st2]. reflexivity.
Qed.

Lemma policyFor_bounds path :
  1 <= maxRequests (policyFor path) <= 100 /\
  0 <= windowMs (policyFor path) <= 900000.
Proof.
  unfold policyFor.
  destruct (Js.startsWith path "/api/auth/"), (Js.startsWith path "/api/");
    repeat split; apply Z.leb_le; vm_compute; reflexivity.
Qed.

Lemma rateLimit_invariant config request t0 t store M W :
  maxRequests config <= M -> 1 <= M -> windowMs config <= W -> t0 <= t ->
  (forall k r, store !! k = Some r ->
     1 <= count r <= M /\ resetTime r <= t0 + W) ->
  forall k r, (rateLimit config request t store).2 !! k = Some r ->
    1 <= count r <= M /\ resetTime r <= t + W.
Proof.
  intros HM H1 HW Ht Hinv k r Hk.
  destruct (rateLimit_cases config request t store)
    as [[_ E] | [(r0 & _ & _ & E)
       | [(r0 & H0 & _ & Hc & E) | (r0 & resp & _ & _ & _ & E & _)]]];
    rewrite E in Hk; cbn [snd] in Hk;
    try (specialize (Hinv _ _ Hk); lia);
    (destruct (decide (rateLimitKey request = k)) as [<-|Hne];
     [rewrite lookup_insert_eq in Hk; injection Hk as <-; cbn;
      try lia; specialize (Hinv _ _ H0); lia
     | rewrite lookup_insert_ne in Hk by assumption;
       specialize (Hinv _ _ Hk); lia]).
Qed.

(** X17. Whatever requests the gate serves, starting with no records
    and with a clock that never goes back, every record has a count
    between 1 and 100, and no window ends more than 15 minutes after
    the last request served: no client is locked out for longer. *)
Theorem gate_counter_bounds env reqs : forall t0 st,
  nondecreasing t0 (map (fun wr => now wr.1) reqs) ->
  (forall k r, rateLimitStore st !! k = Some r ->
     1 <= count r <= 100 /\ resetTime r <= t0 + 900000) ->
  forall k r, rateLimitStore (run env reqs st).2 !! k = Some r ->
    1 <= count r <= 100 /\
    resetTime r <=
      default t0 (last (map (fun wr => now wr.1) reqs)) + 900000.
Proof.
  induction reqs as [|[w request] reqs IH]; intros t0 st Hnd Hinv k r Hk.
  - cbn in Hk |- *. apply (Hinv k r Hk).
  - rewrite run_cons in Hk. cbn [snd] in Hk.
    cbn [map fst nondecreasing] in Hnd. destruct Hnd as [Ht Hnd].
    cbn [map fst]. rewrite last_cons.
    assert (Hlast : forall l : list Z,
              default t0 match last l with
                         | Some y => Some y
                         | None => Some (now w)
                         end = default (now w) (last l))
      by (intros l; destruct (last l); reflexivity).
    rewrite Hlast.
    apply (IH (now w) (middleware env w request st).2 Hnd) with (k := k);
      [| exact Hk].
    intros k' r' Hk'. rewrite middleware_store in Hk'.
    destruct (isPreflight request).
    + specialize (Hinv _ _ Hk'). lia.
    + destruct (policyFor_bounds (pathname request)) as [Hmax Hwin].
      eapply (rateLimit_invariant _ _ t0 (now w));
        [| | | exact Ht | exact Hinv | exact Hk']; lia.
Qed.

Lemma gate_counter_bounds_witness :
  rateLimitStore (run prodEnv [(world0, home_request)] emptyState).2
    !! "rate_limit:198.51.100.4" =
    Some {| count := 1; resetTime := now world0 + 60000 |} /\
  1 <= 1 <= 100.
Proof.
  assert (Hk : rateLimitStore
                 (run prodEnv [(world0, home_request)] emptyState).2
                 !! "rate_limit:198.51.100.4" =
               Some {| count := 1; resetTime := now world0 + 60000 |})
    by (vm_compute; reflexivity).
  split; [exact Hk |].
  apply (gate_counter_bounds prodEnv [(world0, home_request)]
           (now world0) emptyState) in Hk as [Hc _].
  - exact Hc.
  - cbn. lia.
  - intros k r Hempty.
    change ((∅ : gmap string RateRecord) !! k = Some r) in Hempty.
    rewrite lookup_empty in Hempty. discriminate.
Defined.

(** ** The middleware, case by case *)

Lemma middleware_unfold env w request st :
  middleware env w request st =
    if isPreflight request then
      ({| status := 200; headers := headers (afterCors env request);
          body := BodyNull |}, st)
    else
      let limited :=
        rateLimit (policyFor (pathname request)) request (now w)
          (rateLimitStore st) in
      let type :=
        if Js.startsWith (pathname request) "/api/auth/" then "auth"
        else if Js.startsWith (pathname request) "/api/" then "api"
        else "general" in
      match limited.1 with
      | Some resp =>
          (resp,
           {| rateLimitStore := limited.2;
              console := console st ++
                [eventOf "rate_limit_exceeded"
                   [("endpoint", pathname request);
                    ("ip", getClientIP request); ("type", type)] request] |})
      | None =>
          let log :=
            if isAdminArea request
            then console st ++
                 [eventOf "admin_access_attempt"
                    [("path", pathname request);
                     ("ip", getClientIP request)] request]
            else console st in
          if botBlocked request then
            ({| status := 403; headers := ∅;
                body := BodyText "Access Denied" |},
             {| rateLimitStore := limited.2;
                console := log ++
                  [eventOf "suspicious_bot_blocked"
                     [("userAgent", userAgentOf request);
                      ("path", pathname request);
                      ("ip", getClientIP request)] request] |})
          else if oversized request then
            ({| status := 413; headers := ∅;
                body := BodyText "Request Too Large" |},
             {| rateLimitStore := limited.2;
                console := log ++
                  [eventOf "large_request_blocked"
                     [("contentLength",
                       default EmptyString (header request "content-length"));
                      ("path", pathname request);
                      ("ip", getClientIP request)] request] |})
          else if maliciousPath request then
            ({| status := 400; headers := ∅; body := BodyText "Bad Request" |},
             {| rateLimitStore := limited.2;
                console := log ++
                  [eventOf "malicious_url_blocked"
                     [("path", pathname request);
                      ("ip", getClientIP request)] request] |})
          else
            (passResponse env w request,
             {| rateLimitStore := limited.2; console := log |})
      end.
Proof.
  unfold passResponse, afterCors, decorated_response, isAdminArea,
    logSecurityEvent, eventOf.
  gate_unfold. unfold logSecurityEvent.
  destruct (Js.startsWith (pathname request) "/api" &&
            bool_decide (method request = "OPTIONS")); [reflexivity |].
  cbv zeta.
  gate_pick_policy request;
    (destruct (rateLimit _ request (now w) (rateLimitStore st))
       as [[resp|] store']; cbn [fst snd]; [reflexivity |]);
    destruct (Js.startsWith (pathname request) "/admin"),
      (Js.startsWith (pathname request) "/moderator"); cbn [orb];
    destruct (_ && negb (Js.startsWith _ "/api/sitemap"));
    cbn [andb orb]; try reflexivity;
    destruct (Js.truthy _ && exceeds _ _); try reflexivity;
    destruct (Regex.some_test suspiciousUrlPatterns _); reflexivity.
Qed.

Lemma body_configureCORS env request r :
  body (configureCORS env request r) = body r.
Proof. unfold configureCORS. destruct (_ && _); reflexivity. Qed.

Lemma status_passResponse env w request :
  status (passResponse env w request) = 200 /\
  body (passResponse env w request) = BodyNext.
Proof.
  unfold passResponse, afterCors.
  destruct (bool_decide (NODE_ENV env = "development")),
    (isAdminArea request); cbn [status body set_header];
    (destruct (Js.startsWith (pathname request) "/api");
     [rewrite status_configureCORS, body_configureCORS |]); split; reflexivity.
Qed.

(** X18. The security log only grows, by at most two entries a
    request, each carrying the derived client IP.  A rejection always
    leaves an entry naming its reason as the last one; a request that
    is let through leaves at most an [admin_access_attempt]; a
    preflight leaves nothing. *)
Theorem audit_trail env w request st :
  exists new,
    console (middleware env w request st).2 = console st ++ new /\
    (length new <= 2)%nat /\
    Forall (fun e => ev_ip e = getClientIP request) new /\
    (status (middleware env w request st).1 = 429 ->
     map event new = ["rate_limit_exceeded"]) /\
    (status (middleware env w request st).1 = 403 ->
     last (map event new) = Some "suspicious_bot_blocked") /\
    (status (middleware env w request st).1 = 413 ->
     last (map event new) = Some "large_request_blocked") /\
    (status (middleware env w request st).1 = 400 ->
     last (map event new) = Some "malicious_url_blocked") /\
    (status (middleware env w request st).1 = 200 ->
     new = [] \/
     isAdminArea request = true /\ isPreflight request = false /\
     map event new = ["admin_access_attempt"]).
Proof.
  rewrite middleware_unfold.
  destruct (isPreflight request).
  { exists []. cbn [fst snd status console]. rewrite app_nil_r.
    repeat split; try constructor; try discriminate; auto. }
  cbv zeta.
  destruct (rateLimit _ request (now w) (rateLimitStore st)).1 as [resp|] eqn:E.
  { apply rateLimit_status in E. eexists. cbn [fst snd console].
    split; [reflexivity |]. rewrite E.
    repeat split; try (repeat constructor; fail); try discriminate;
      cbn; lia. }
  pose proof (status_passResponse env w request) as [Hpass _].
  destruct (isAdminArea request), (botBlocked request), (oversized request),
    (maliciousPath request); cbn [fst snd console status];
    rewrite <- ?app_assoc, ?Hpass;
    eexists; (split; [try reflexivity; symmetry; apply app_nil_r |]);
    (split; [cbn; lia |]);
    (split; [repeat constructor |]);
    repeat split; try discriminate; try reflexivity; auto.
Qed.

(** X19. A preflight ([OPTIONS] on a path starting with [/api]) is
    answered 200 before any check: it carries the security and CORS
    headers, consumes no rate-limit budget, writes no log entry, and is
    not subject to the bot, size or path checks. *)
Theorem preflight_bypass env w request st :
  isPreflight request = true ->
  (middleware env w request st).2 = st /\
  status (middleware env w request st).1 = 200 /\
  body (middleware env w request st).1 = BodyNull /\
  (forall name value, (name, value) ∈ getSecurityHeaders ->
     Headers.get name (headers (middleware env w request st).1) = Some value) /\
  Headers.get "Access-Control-Allow-Methods"
    (headers (middleware env w request st).1) =
    Some "GET, POST, PUT, DELETE, OPTIONS" /\
  Headers.get "Access-Control-Allow-Credentials"
    (headers (middleware env w request st).1) = Some "true".
Proof.
  intros Hpre. rewrite middleware_unfold, Hpre. cbn [fst snd status body headers].
  unfold isPreflight in Hpre. apply andb_true_iff in Hpre as [Hapi _].
  unfold afterCors. rewrite Hapi.
  repeat split.
  - intros name value Hin. unfold getSecurityHeaders in Hin.
    unfold configureCORS, set_header. cbn [headers].
    repeat (apply elem_of_cons in Hin as [[= -> ->] | Hin];
            [rewrite !get_set_ne by (vm_compute; discriminate);
             destruct (Js.truthy (header request "origin") && _);
             cbn [headers];
             rewrite ?get_set_ne by (vm_compute; discriminate);
             vm_compute; reflexivity |]).
    apply elem_of_nil in Hin. contradiction.
  - unfold configureCORS, set_header. cbn [headers].
    rewrite !get_set_ne by (vm_compute; discriminate). apply get_set_eq.
  - unfold configureCORS, set_header. cbn [headers]. apply get_set_eq.
Qed.

Lemma preflight_bypass_witness :
  status (middleware prodEnv world0
            (mkRequest "OPTIONS" "/api/../../etc/passwd"
               [("User-Agent", "curl-scraper/1.0");
                ("Content-Length", "11000000")] None) emptyState).1 = 200 /\
  (middleware prodEnv world0
     (mkRequest "OPTIONS" "/api/../../etc/passwd"
        [("User-Agent", "curl-scraper/1.0");
         ("Content-Length", "11000000")] None) emptyState).2 = emptyState.
Proof.
  destruct (preflight_bypass prodEnv world0
              (mkRequest "OPTIONS" "/api/../../etc/passwd"
                 [("User-Agent", "curl-scraper/1.0");
                  ("Content-Length", "11000000")] None) emptyState)
    as (Hst & Hs & _); [vm_compute; reflexivity |].
  split; assumption.
Defined.

Lemma configureCORS_other env request response name :
  Js.lower name ∉ corsHeaderNames ->
  Headers.get name (headers (configureCORS env request response)) =
  Headers.get name (headers response).
Proof.
  unfold corsHeaderNames. rewrite !not_elem_of_cons.
  intros (H1 & H2 & H3 & H4 & H5 & _).
  unfold configureCORS, set_header. cbn [headers].
  rewrite !get_set_ne
    by (intros Hx;
        first [apply H2; rewrite <- Hx; reflexivity
              | apply H3; rewrite <- Hx; reflexivity
              | apply H4; rewrite <- Hx; reflexivity
              | apply H5; rewrite <- Hx; reflexivity]).
  destruct (Js.truthy (header request "origin") && _); cbn [headers];
    [| reflexivity].
  apply get_set_ne. intros Hx. apply H1. rewrite <- Hx. reflexivity.
Qed.

(** X20. [configureCORS] writes the allowed methods, the allowed
    headers, the 24-hour preflight cache and
    [Access-Control-Allow-Credentials: true] on every response, whether
    or not the origin is allowed, and leaves the status, the body and
    every other header as they were. *)
Theorem configureCORS_fixed env request response :
  Headers.get "Access-Control-Allow-Methods"
    (headers (configureCORS env request response)) =
    Some "GET, POST, PUT, DELETE, OPTIONS" /\
  Headers.get "Access-Control-Allow-Headers"
    (headers (configureCORS env request response)) =
    Some "Content-Type, Authorization, X-Requested-With" /\
  Headers.get "Access-Control-Max-Age"
    (headers (configureCORS env request response)) = Some "86400" /\
  Headers.get "Access-Control-Allow-Credentials"
    (headers (configureCORS env request response)) = Some "true" /\
  status (configureCORS env request response) = status response /\
  body (configureCORS env request response) = body response /\
  (forall name, Js.lower name ∉ corsHeaderNames ->
     Headers.get name (headers (configureCORS env request response)) =
     Headers.get name (headers response)).
Proof.
  repeat split;
    try apply status_configureCORS; try apply body_configureCORS;
    try (intros name; apply configureCORS_other);
    unfold configureCORS, set_header; cbn [headers];
    rewrite ?get_set_ne by (vm_compute; discriminate); apply get_set_eq.
Qed.

Lemma afterCors_security env request name value :
  (name, value) ∈ getSecurityHeaders ->
  Headers.get name (headers (afterCors env request)) = Some value.
Proof.
  intros Hin. unfold afterCors.
  assert (Hbase : Headers.get name (headers decorated_response) = Some value
                  /\ Js.lower name ∉ corsHeaderNames).
  { unfold getSecurityHeaders in Hin.
    repeat (apply elem_of_cons in Hin as [[= -> ->] | Hin];
            [split; [vm_compute; reflexivity
                    | apply (bool_decide_unpack _); vm_compute; exact I] |]).
    apply elem_of_nil in Hin. contradiction. }
  destruct Hbase as [Hbase Hnot].
  destruct (Js.startsWith (pathname request) "/api"); [| exact Hbase].
  rewrite configureCORS_other by exact Hnot. exact Hbase.
Qed.

Lemma afterCors_absent env request name :
  Js.lower name ∉ corsHeaderNames ->
  Headers.get name (headers decorated_response) = None ->
  Headers.get name (headers (afterCors env request)) = None.
Proof.
  intros Hnot Hnone. unfold afterCors.
  destruct (Js.startsWith (pathname request) "/api"); [| exact Hnone].
  rewrite configureCORS_other by exact Hnot. exact Hnone.
Qed.

(** X21. A request that no check stops gets status 200 and the
    response of the route, decorated with the request identifier, the
    response time and every security header; [X-Frame-Options] is
    [DENY], but under [/admin] and [/moderator] it is [SAMEORIGIN] and
    the no-cache headers are added; [X-Debug-IP] is present exactly in
    development. *)
Theorem pass_through_headers env w request st :
  isPreflight request = false ->
  rateLimited w request st = false ->
  botBlocked request = false ->
  oversized request = false ->
  maliciousPath request = false ->
  status (middleware env w request st).1 = 200 /\
  body (middleware env w request st).1 = BodyNext /\
  Headers.get "X-Request-ID" (headers (middleware env w request st).1) =
    Some (requestId w) /\
  Headers.get "X-Response-Time" (headers (middleware env w request st).1) =
    Some (Js.toString (stamp w)) /\
  (forall name value,
     (name, value) ∈ getSecurityHeaders -> name <> "X-Frame-Options" ->
     Headers.get name (headers (middleware env w request st).1) = Some value) /\
  Headers.get "X-Frame-Options" (headers (middleware env w request st).1) =
    Some (if isAdminArea request then "SAMEORIGIN" else "DENY") /\
  Headers.get "Cache-Control" (headers (middleware env w request st).1) =
    (if isAdminArea request
     then Some "no-store, no-cache, must-revalidate, proxy-revalidate"
     else None) /\
  Headers.get "X-Debug-IP" (headers (middleware env w request st).1) =
    (if bool_decide (NODE_ENV env = "development")
     then Some (getClientIP request) else None).
Proof.
  intros Hpre Hrl Hbot Hover Hmal.
  rewrite middleware_unfold, Hpre, Hbot, Hover, Hmal. cbv zeta.
  unfold rateLimited in Hrl. apply bool_decide_eq_false in Hrl.
  destruct (rateLimit _ request (now w) (rateLimitStore st)).1 as [resp|];
    [exfalso; apply Hrl; eauto |].
  cbn [fst].
  destruct (status_passResponse env w request) as [Hs Hb].
  split; [exact Hs |]. split; [exact Hb |].
  unfold passResponse.
  destruct (bool_decide (NODE_ENV env = "development")),
    (isAdminArea request); unfold set_header; cbn [headers];
    (split; [rewrite ?get_set_ne by (vm_compute; discriminate);
             apply get_set_eq |]);
    (split; [rewrite ?get_set_ne by (vm_compute; discriminate);
             apply get_set_eq |]);
    (split;
     [intros name value Hin Hne;
      pose proof (afterCors_security env request name value Hin) as Hsec;
      unfold getSecurityHeaders in Hin;
      repeat (apply elem_of_cons in Hin as [[= -> ->] | Hin];
              [first [contradiction
                     | rewrite ?get_set_ne by (vm_compute; discriminate);
                       exact Hsec] |]);
      apply elem_of_nil in Hin; contradiction |]);
    (split; [rewrite ?get_set_ne by (vm_compute; discriminate);
             first [apply get_set_eq
                   | apply afterCors_security; do 2 right; left] |]);
    (split; [rewrite ?get_set_ne by (vm_compute; discriminate);
             first [apply get_set_eq
                   | apply afterCors_absent;
                     [apply (bool_decide_unpack _); vm_compute; exact I
                     | vm_compute; reflexivity]] |]);
    rewrite ?get_set_ne by (vm_compute; discriminate);
    first [apply get_set_eq
          | apply afterCors_absent;
            [apply (bool_decide_unpack _); vm_compute; exact I
            | vm_compute; reflexivity]].
Qed.

Lemma pass_through_headers_witness :
  status (middleware prodEnv world0
            (mkRequest "GET" "/admin/users" [] None) emptyState).1 = 200 /\
  Headers.get "X-Frame-Options"
    (headers (middleware prodEnv world0
                (mkRequest "GET" "/admin/users" [] None) emptyState).1) =
    Some "SAMEORIGIN".
Proof.
  destruct (pass_through_headers prodEnv world0
              (mkRequest "GET" "/admin/users" [] None) emptyState)
    as (Hs & _ & _ & _ & _ & Hxfo & _); try (vm_compute; reflexivity).
  split; [exact Hs | exact Hxfo].
Defined.

(** ** More on the client identity *)

Lemma split_comma_head_id v :
  no_comma v = true -> Js.split_comma_head v = v.
Proof.
  induction v as [|c v IH]; [reflexivity |]. cbn [no_comma Js.split_comma_head].
  intros H. apply andb_true_iff in H as [Hc Hv].
  apply negb_true_iff in Hc. rewrite Hc, IH by exact Hv. reflexivity.
Qed.

Lemma trimEnd_id v :
  (forall a c, v = a +:+ String c EmptyString -> Js.is_white_space c = false) ->
  Js.trimEnd v = v.
Proof.
  induction v as [|c v IH]; [reflexivity |]. intros Hlast.
  cbn [Js.trimEnd]. rewrite IH.
  - destruct v; [| reflexivity].
    rewrite (Hlast EmptyString c eq_refl). reflexivity.
  - intros a d ->. apply (Hlast (String c a) d). reflexivity.
Qed.

(** X22. The client chooses its own identity: whatever else a request
    carries, adding an [x-forwarded-for] header whose value is not
    empty, holds no comma and neither starts nor ends with white space
    makes that value the derived identity, and with it the key of the
    rate-limit counter. *)
Theorem forwarded_for_overrides request v :
  v <> EmptyString ->
  no_comma v = true ->
  (forall c r, v = String c r -> Js.is_white_space c = false) ->
  (forall a c, v = a +:+ String c EmptyString -> Js.is_white_space c = false) ->
  getClientIP (with_header request "X-Forwarded-For" v) = v /\
  rateLimitKey (with_header request "X-Forwarded-For" v) = "rate_limit:" +:+ v.
Proof.
  intros Hne Hcomma Hfirst Hlast.
  assert (Hip : getClientIP (with_header request "X-Forwarded-For" v) = v).
  { unfold getClientIP.
    assert (Hh : header (with_header request "X-Forwarded-For" v)
                   "x-forwarded-for" = Some v) by apply lookup_insert_eq.
    rewrite Hh. destruct v as [|c v]; [contradiction |].
    cbn [Js.truthy default from_option id].
    rewrite split_comma_head_id by exact Hcomma.
    unfold Js.trim. cbn [Js.trimStart].
    rewrite (Hfirst c v eq_refl). apply trimEnd_id. exact Hlast. }
  split; [exact Hip |]. unfold rateLimitKey. rewrite Hip. reflexivity.
Qed.

Lemma forwarded_for_overrides_witness :
  getClientIP (with_header proxied_request "X-Forwarded-For" "10.9.8.7") =
  "10.9.8.7".
Proof.
  apply (forwarded_for_overrides proxied_request "10.9.8.7").
  - discriminate.
  - reflexivity.
  - intros c r [= <- _]. reflexivity.
  - intros a c Hv.
    assert (Hrev : String.rev "10.9.8.7" = String.rev (a +:+ String c EmptyString))
      by (rewrite Hv; reflexivity).
    clear Hv. revert Hrev.
    assert (Hr : forall s t, String.rev_app (s +:+ String c EmptyString) t =
                             String.rev_app (String c EmptyString) (String.rev_app s t)).
    { clear. induction s as [|x s IH]; intros t; [reflexivity |].
      cbn. apply IH. }
    unfold String.rev. rewrite Hr. cbn. intros [= <- _]. reflexivity.
Defined.

(** X23. The derived identity is never the empty string, except for a
    request whose [x-forwarded-for] header is not empty but starts with
    a blank hop; all such requests share one counter. *)
Theorem empty_identity request :
  getClientIP request = EmptyString <->
  exists c v,
    header request "x-forwarded-for" = Some (String c v) /\
    Js.trim (Js.split_comma_head (String c v)) = EmptyString.
Proof.
  rewrite getClientIP_unfold.
  destruct (header request "x-forwarded-for") as [[|c v]|].
  - destruct (header request "x-real-ip") as [[|? ?]|],
      (header request "cf-connecting-ip") as [[|? ?]|],
      (req_ip request) as [[|? ?]|];
      (split; [discriminate | intros (? & ? & ? & _); discriminate]).
  - split; [intros H; exists c, v; auto |].
    intros (c' & v' & [= <- <-] & H). exact H.
  - destruct (header request "x-real-ip") as [[|? ?]|],
      (header request "cf-connecting-ip") as [[|? ?]|],
      (req_ip request) as [[|? ?]|];
      (split; [discriminate | intros (? & ? & ? & _); discriminate]).
Qed.

(** ** What sanitizeInput lets through *)

Lemma remove_from_skip (r : Re.t) fuel p c s :
  Re.run (option N * list N) r p (c :: s) (fun p' s' => Some (p', s')) = None ->
  Re.remove_from (S fuel) r p (c :: s) = c :: Re.remove_from fuel r (Some c) s.
Proof. intros E. cbn [Re.remove_from]. rewrite E. reflexivity. Qed.

Lemma remove_from_hit (r : Re.t) fuel p s p' s' :
  Re.run (option N * list N) r p s (fun p' s' => Some (p', s')) =
    Some (p', s') ->
  (length s' < length s)%nat ->
  Re.remove_from (S fuel) r p s = Re.remove_from fuel r p' s'.
Proof.
  intros E Hlen. cbn [Re.remove_from]. rewrite E.
  destruct (Nat.ltb_spec (length s') (length s)); [reflexivity | lia].
Qed.

Lemma remove_from_untouched (r : Re.t) c fuel p s :
  needs c r -> c ∉ s -> Re.remove_from fuel r p s = s.
Proof.
  intros Hneeds Hc. apply remove_from_no_match. intros q pre u ->.
  apply run_none. intros p' s' Hl. exfalso. apply Hc.
  destruct (lang_needs c r _ _ _ _ Hneeds Hl) as (m & -> & Hin).
  rewrite !elem_of_app. auto.
Qed.

Lemma units_trimEnd_cons c s :
  Units.is_space c = false -> Units.trimEnd (c :: s) = c :: Units.trimEnd s.
Proof.
  intros Hc. cbn [Units.trimEnd]. rewrite Hc.
  destruct (Units.trimEnd s); reflexivity.
Qed.

(** X24. One pass is not enough: for any text free of [<], [:] and
    [=], [sanitizeInput] turns [javajavascript:script:] followed by
    that text into [javascript:] followed by it (less trailing white
    space), so its result can start with the very scheme it removes. *)
Theorem sanitizeInput_rebuilds_javascript_url (payload : list N) :
  60%N ∉ payload -> 58%N ∉ payload -> 61%N ∉ payload ->
  sanitizeInput (Units.of_string "javajavascript:script:" ++ payload) =
  Units.of_string "javascript:" ++ Units.trimEnd payload.
Proof.
  intros Hlt Hcolon Heq.
  assert (Hsub : forall c, c ∉ payload -> c ∉ Units.trimEnd payload).
  { intros c Hc Hin. apply Hc.
    exact (elem_of_sublist _ _ _ Hin (trimEnd_sublist payload)). }
  set (tail := Units.trimEnd payload).
  assert (Htrim : Units.trim (Units.of_string "javajavascript:script:" ++ payload)
                  = Units.of_string "javajavascript:script:" ++ tail).
  { unfold Units.trim.
    let x := eval vm_compute in (Units.of_string "javajavascript:script:") in
    change (Units.of_string "javajavascript:script:") with x.
    cbn [app Units.trimStart].
    change (Units.is_space 106) with false. cbv iota.
    rewrite !units_trimEnd_cons by reflexivity. reflexivity. }
  unfold sanitizeInput. rewrite Htrim. clear Htrim.
  apply Hsub in Hlt, Hcolon, Heq. fold tail in Hlt, Hcolon, Heq.
  clearbody tail. clear Hsub.
  let x := eval vm_compute in (Units.of_string "javajavascript:script:") in
  change (Units.of_string "javajavascript:script:") with x.
  let x := eval vm_compute in (Units.of_string "javascript:") in
  change (Units.of_string "javascript:") with x.
  cbn [app].
  rewrite (remove_all_untouched scriptTagPattern 60);
    [| exact scriptTagPattern_needs
     | rewrite !not_elem_of_cons; repeat split; try (intros [=]); auto].
  assert (Hjs : Re.remove_all javascriptUrlPattern
                  ([106; 97; 118; 97; 106; 97; 118; 97; 115; 99; 114; 105;
                    112; 116; 58; 115; 99; 114; 105; 112; 116; 58]%N ++ tail)
                = [106; 97; 118; 97; 115; 99; 114; 105; 112; 116; 58]%N ++ tail).
  { unfold Re.remove_all. cbn [app length].
    do 4 (rewrite remove_from_skip by (vm_compute; reflexivity)).
    erewrite remove_from_hit; [| vm_compute; reflexivity | cbn [length]; lia].
    do 7 (rewrite remove_from_skip by (vm_compute; reflexivity)).
    rewrite (remove_from_untouched javascriptUrlPattern 58)
      by auto using javascriptUrlPattern_needs.
    reflexivity. }
  cbn [app] in Hjs. rewrite Hjs. clear Hjs.
  rewrite (remove_all_untouched eventHandlerPattern 61);
    [| exact eventHandlerPattern_needs
     | rewrite !not_elem_of_cons; repeat split; try (intros [=]); auto].
  unfold Re.remove_all. cbn [length].
  do 11 (rewrite remove_from_skip by (vm_compute; reflexivity)).
  rewrite (remove_from_untouched dataUrlPattern 58)
    by auto using dataUrlPattern_needs.
  reflexivity.
Qed.

Lemma sanitizeInput_rebuilds_javascript_url_witness :
  sanitizeInput (Units.of_string "javajavascript:script:alert(1)") =
  Units.of_string "javascript:alert(1)".
Proof.
  change (Units.of_string "javajavascript:script:alert(1)")
    with (Units.of_string "javajavascript:script:" ++
          Units.of_string "alert(1)").
  rewrite sanitizeInput_rebuilds_javascript_url;
    [vm_compute; reflexivity | ..];
    apply (bool_decide_unpack _); vm_compute; exact I.
Defined.
